(** * web3-provider-proxy: the request-handling pipeline of the worker

    The worker is one JavaScript module: [sha256], [fetchWithTimeout],
    [tryProvider], [getOriginResponse], [formatResponse], [handleOptions],
    [handleGet], [handlePost] and the fetch listener.  Each of them is
    embedded below under its own name, from the revision of the module
    that has the per-attempt timeout, the ok check and the cache bypass
    (the repository also keeps an earlier revision, [index.js], that has
    none of the three; its loop and its handlers are in the module
    [Earlier]).  The platform the worker runs on
    is a parameter: the network and [Math.random] are fields of the
    [World] a handler runs in, the edge cache and [JSON.parse] members of
    the class [Runtime], the environment variables those of [Config]. *)

From Stdlib Require Import Ascii QArith Qround Qpower Lqa.
From stdpp Require Import gmap strings list pretty.

Local Open Scope string_scope.
Local Open Scope list_scope.
Local Open Scope N_scope.

(** ** JavaScript strings

    A string is held as the bytes of its UTF-8 encoding, so that
    [TextEncoder.encode] is the list of its characters.  Strings with lone
    surrogates have no such encoding and are outside the model. *)

Definition dquote : ascii := ascii_of_nat 34.
Definition backslash : ascii := ascii_of_nat 92.

Definition str (c : ascii) : string := String c EmptyString.

Fixpoint concat_map (f : ascii -> string) (s : string) : string :=
  match s with
  | EmptyString => EmptyString
  | String c rest => f c +:+ concat_map f rest
  end.

(** [toLowerCase] and [toUpperCase] on the names of headers and methods,
    which are ASCII. *)
Definition to_lower_ascii (c : ascii) : ascii :=
  let n := N_of_ascii c in
  if (65 <=? n) && (n <=? 90) then ascii_of_N (n + 32) else c.

Definition to_upper_ascii (c : ascii) : ascii :=
  let n := N_of_ascii c in
  if (97 <=? n) && (n <=? 122) then ascii_of_N (n - 32) else c.

Fixpoint map_string (f : ascii -> ascii) (s : string) : string :=
  match s with
  | EmptyString => EmptyString
  | String c rest => String (f c) (map_string f rest)
  end.

Definition toLowerCase : string -> string := map_string to_lower_ascii.
Definition toUpperCase : string -> string := map_string to_upper_ascii.

Fixpoint string_drop (n : nat) (s : string) : string :=
  match n, s with
  | O, _ => s
  | S n', String _ rest => string_drop n' rest
  | S _, EmptyString => EmptyString
  end.

(** [s.slice(-k)]: the last [k] characters, the whole of [s] when it is
    shorter. *)
Definition slice_last (k : nat) (s : string) : string :=
  string_drop (String.length s - k) s.

(** [l.join(sep)] *)
Fixpoint join (sep : string) (l : list string) : string :=
  match l with
  | [] => ""
  | x :: rest =>
      match rest with
      | [] => x
      | _ => x +:+ sep +:+ join sep rest
      end
  end.

(** ** [Number.prototype.toString(16)] on a non-negative integer *)

Definition hex_digit (d : N) : ascii :=
  match String.get (N.to_nat d) "0123456789abcdef" with
  | Some c => c
  | None => "0"%char
  end.

Fixpoint toString16_go (fuel : nat) (n : N) (acc : string) : string :=
  match fuel with
  | O => acc
  | S fuel' =>
      let acc' := String (hex_digit (n mod 16)) acc in
      if n / 16 =? 0 then acc' else toString16_go fuel' (n / 16) acc'
  end.

Definition toString16 (n : N) : string :=
  toString16_go (S (N.to_nat (N.log2 n))) n "".

(** ** SHA-256 (FIPS 180-4), the platform's [crypto.subtle.digest]

    Words are naturals below [2^32].  The round constants and the initial
    hash value are computed the way the standard defines them, from the
    cube and square roots of the first primes. *)

Module SHA256.

Definition mask32 : N := 0xffffffff.
Definition w32 (x : N) : N := N.land x mask32.
Definition add32 (a b : N) : N := w32 (a + b).
Definition not32 (x : N) : N := N.lxor (w32 x) mask32.
Definition rotr (n x : N) : N :=
  N.lor (N.shiftr x n) (w32 (N.shiftl x (32 - n))).

Definition Ch (x y z : N) : N := N.lxor (N.land x y) (N.land (not32 x) z).
Definition Maj (x y z : N) : N :=
  N.lxor (N.lxor (N.land x y) (N.land x z)) (N.land y z).
Definition Sigma0 (x : N) : N :=
  N.lxor (N.lxor (rotr 2 x) (rotr 13 x)) (rotr 22 x).
Definition Sigma1 (x : N) : N :=
  N.lxor (N.lxor (rotr 6 x) (rotr 11 x)) (rotr 25 x).
Definition sigma0 (x : N) : N :=
  N.lxor (N.lxor (rotr 7 x) (rotr 18 x)) (N.shiftr x 3).
Definition sigma1 (x : N) : N :=
  N.lxor (N.lxor (rotr 17 x) (rotr 19 x)) (N.shiftr x 10).

Definition primes : list N :=
  [2; 3; 5; 7; 11; 13; 17; 19; 23; 29; 31; 37; 41; 43; 47; 53;
   59; 61; 67; 71; 73; 79; 83; 89; 97; 101; 103; 107; 109; 113; 127; 131;
   137; 139; 149; 151; 157; 163; 167; 173; 179; 181; 191; 193; 197; 199;
   211; 223; 227; 229; 233; 239; 241; 251; 257; 263; 269; 271; 277; 281;
   283; 293; 307; 311].

(** Integer cube root, one bit at a time from bit [bits - 1] down. *)
Fixpoint cbrt_go (bits : nat) (x r : N) : N :=
  match bits with
  | O => r
  | S b =>
      let r' := r + N.shiftl 1 (N.of_nat b) in
      cbrt_go b x (if r' * r' * r' <=? x then r' else r)
  end.

Definition frac_cbrt32 (p : N) : N := w32 (cbrt_go 36 (N.shiftl p 96) 0).
Definition frac_sqrt32 (p : N) : N := w32 (N.sqrt (N.shiftl p 64)).

Definition K : list N := Eval vm_compute in map frac_cbrt32 primes.
Definition H0 : list N := Eval vm_compute in map frac_sqrt32 (take 8 primes).

(** Padding: a [1] bit, zeros up to 56 modulo 64 bytes, and the length
    in bits as a 64-bit big-endian integer. *)
Fixpoint be_bytes (k : nat) (x : N) : list N :=
  match k with
  | O => []
  | S k' => N.land (N.shiftr x (8 * N.of_nat k')) 0xff :: be_bytes k' x
  end.

Definition pad (msg : list N) : list N :=
  let len := N.of_nat (length msg) in
  let zeros := N.to_nat ((119 - len mod 64) mod 64) in
  msg ++ [0x80] ++ repeat 0 zeros ++ be_bytes 8 (8 * len).

Fixpoint be_word (bs : list N) (acc : N) : N :=
  match bs with
  | [] => acc
  | b :: rest => be_word rest (N.lor (N.shiftl acc 8) b)
  end.

Fixpoint chunks (fuel k : nat) (l : list N) : list (list N) :=
  match fuel with
  | O => []
  | S fuel' =>
      match l with
      | [] => []
      | _ => take k l :: chunks fuel' k (drop k l)
      end
  end.

Definition words (bs : list N) : list N :=
  map (fun c => be_word c 0) (chunks (length bs) 4 bs).

Definition at_ (l : list N) (i : nat) : N := nth i l 0.

(** The message schedule, most recent word first. *)
Fixpoint schedule (n : nat) (rev_w : list N) : list N :=
  match n with
  | O => rev_w
  | S n' =>
      let w := add32 (add32 (sigma1 (at_ rev_w 1)) (at_ rev_w 6))
                     (add32 (sigma0 (at_ rev_w 14)) (at_ rev_w 15)) in
      schedule n' (w :: rev_w)
  end.

Record regs := Regs { ra : N; rb : N; rc : N; rd : N;
                      re : N; rf : N; rg : N; rh : N }.

Definition round (s : regs) (kw : N * N) : regs :=
  let t1 := add32 (add32 (add32 (rh s) (Sigma1 (re s)))
                         (add32 (Ch (re s) (rf s) (rg s)) (fst kw)))
                  (snd kw) in
  let t2 := add32 (Sigma0 (ra s)) (Maj (ra s) (rb s) (rc s)) in
  Regs (add32 t1 t2) (ra s) (rb s) (rc s) (add32 (rd s) t1) (re s) (rf s) (rg s).

Definition regs_of (h : list N) : regs :=
  Regs (at_ h 0) (at_ h 1) (at_ h 2) (at_ h 3)
       (at_ h 4) (at_ h 5) (at_ h 6) (at_ h 7).

Definition list_of (s : regs) : list N :=
  [ra s; rb s; rc s; rd s; re s; rf s; rg s; rh s].

Definition compress (h : list N) (block : list N) : list N :=
  let w := rev (schedule 48 (rev (words block))) in
  let s := fold_left round (combine K w) (regs_of h) in
  map (fun p => add32 (fst p) (snd p)) (combine h (list_of s)).

Definition digest (msg : list N) : list N :=
  let p := pad msg in
  let h := fold_left compress (chunks (length p) 64 p) H0 in
  concat (map (be_bytes 4) h).

End SHA256.

(** ** [sha256(message)]

    [message] is [None] when the caller passes [undefined];
    [TextEncoder.encode] then encodes its default, the empty string. *)

Definition TextEncoder_encode (message : option string) : list N :=
  match message with
  | Some s => map N_of_ascii (String.list_ascii_of_string s)
  | None => []
  end.

(** [("00" + b.toString(16)).slice(-2)] *)
Definition hex_of_byte (b : N) : string := slice_last 2 ("00" +:+ toString16 b).

Definition sha256 (message : option string) : string :=
  let msgBuffer := TextEncoder_encode message in
  let hashBuffer := SHA256.digest msgBuffer in
  let hashArray := hashBuffer in
  let hashHex := join "" (map hex_of_byte hashArray) in
  hashHex.

(** ** JSON documents and JavaScript objects

    A parsed JSON document.  Numbers are the integers (those that a double
    holds exactly and that print without an exponent); an object is the
    list of its own properties, each key once, in the order the engine
    enumerates them. *)

#[warnings="-register-all"]
Inductive JSON : Type :=
| JNull
| JBool (b : bool)
| JNum (n : Z)
| JStr (s : string)
| JArr (items : list JSON)
| JObj (props : list (string * JSON)).

(** A JavaScript value read from such a document: [None] is [undefined]. *)
Definition jsval : Type := option JSON.

(** A plain object under construction, whose properties may hold
    [undefined] (as [{ id }] does when [id] is). *)
Definition Obj : Type := list (string * jsval).

(** [QuoteJSONString] *)
Definition escape_char (c : ascii) : string :=
  let n := N_of_ascii c in
  if n =? 34 then String backslash (str dquote)
  else if n =? 92 then String backslash (str backslash)
  else if n =? 8 then "\b"
  else if n =? 12 then "\f"
  else if n =? 10 then "\n"
  else if n =? 13 then "\r"
  else if n =? 9 then "\t"
  else if n <? 32 then "\u00" +:+ hex_of_byte n
  else str c.

Definition quote (s : string) : string :=
  str dquote +:+ concat_map escape_char s +:+ str dquote.

(** [JSON.stringify] on a document (no [undefined] inside, no [toJSON]). *)
Fixpoint stringify (j : JSON) : string :=
  match j with
  | JNull => "null"
  | JBool true => "true"
  | JBool false => "false"
  | JNum n => pretty n
  | JStr s => quote s
  | JArr items => "[" +:+ join "," (map stringify items) +:+ "]"
  | JObj props =>
      "{" +:+ join "," (map (fun '(k, v) => quote k +:+ ":" +:+ stringify v) props)
          +:+ "}"
  end.

(** [JSON.stringify(value)]: [undefined] for [undefined]. *)
Definition JSON_stringify (v : jsval) : option string := stringify <$> v.

(** Serialising an object skips the properties that hold [undefined]. *)
Definition defined_props (o : Obj) : list (string * JSON) :=
  omap (fun '(k, v) => pair k <$> v) o.

Definition JSON_stringify_object (o : Obj) : string :=
  stringify (JObj (defined_props o)).

(** *** Own properties and their order

    A key is an array index when it is the canonical decimal form of an
    integer below [2^32 - 1]; the engine enumerates those first, ascending,
    and the other keys in insertion order. *)

Definition digit_of (c : ascii) : option N :=
  let n := N_of_ascii c in
  if (48 <=? n) && (n <=? 57) then Some (n - 48) else None.

Fixpoint digits_value (s : string) (acc : N) : option N :=
  match s with
  | EmptyString => Some acc
  | String c rest =>
      match digit_of c with
      | Some d => digits_value rest (10 * acc + d)
      | None => None
      end
  end.

Definition array_index (k : string) : option N :=
  match k with
  | EmptyString => None
  | String c rest =>
      if (N_of_ascii c =? 48) && negb (String.eqb rest "") then None
      else match digits_value k 0 with
           | Some n => if n <? 2 ^ 32 - 1 then Some n else None
           | None => None
           end
  end.

Definition obj_get (k : string) (o : Obj) : option jsval :=
  snd <$> List.find (fun p => String.eqb (fst p) k) o.

Definition has_key (k : string) (o : Obj) : bool :=
  existsb (fun p => String.eqb (fst p) k) o.

Definition obj_replace (k : string) (v : jsval) (o : Obj) : Obj :=
  map (fun p => if String.eqb (fst p) k then (k, v) else p) o.

Fixpoint obj_insert_index (i : N) (k : string) (v : jsval) (o : Obj) : Obj :=
  match o with
  | [] => [(k, v)]
  | p :: rest =>
      match array_index (fst p) with
      | Some i' => if i' <? i then p :: obj_insert_index i k v rest
                   else (k, v) :: o
      | None => (k, v) :: o
      end
  end.

(** [CreateDataProperty]: an existing key keeps its place, a new one goes
    where the enumeration order puts it. *)
Definition obj_set (k : string) (v : jsval) (o : Obj) : Obj :=
  if has_key k o then obj_replace k v o
  else match array_index k with
       | Some i => obj_insert_index i k v o
       | None => o ++ [(k, v)]
       end.

(** The own enumerable properties that a spread copies out of a value:
    those of an object, the elements of an array, the characters of a
    string (one per byte here, which is the engine's split for ASCII
    text), nothing for [null], a number or a boolean. *)
Definition own_props (j : JSON) : Obj :=
  match j with
  | JObj props => map (fun '(k, v) => (k, Some v)) props
  | JArr items => imap (fun i v => (pretty i, Some v)) items
  | JStr s =>
      imap (fun i c => (pretty i, Some (JStr (str c)))) (String.list_ascii_of_string s)
  | JNull | JBool _ | JNum _ => []
  end.

Definition copy_props (src : Obj) (target : Obj) : Obj :=
  fold_left (fun acc '(k, v) => obj_set k v acc) src target.

(** [{ ...a, ...b }] *)
Definition spread2 (a : JSON) (b : Obj) : Obj :=
  copy_props b (copy_props (own_props a) []).

(** Reading one of the properties [method], [id], [jsonrpc], [params] (none
    is an array index or [length]): an object answers with its own
    property, every other value but [null] with [undefined].  Reading a
    property of [null] throws; that case is the caller's. *)
Definition get_prop (k : string) (j : JSON) : jsval :=
  match j with
  | JObj props => snd <$> List.find (fun p => String.eqb (fst p) k) props
  | _ => None
  end.

(** ** The Web platform's values *)

(** A parsed URL ([new URL(...)]), its fields as the URL parser leaves
    them: [protocol] ends in a colon, [search] and [fragment] (the [hash]
    property) are empty or start with their delimiter. *)
Record URL := mkURL {
  protocol : string;
  hostname : string;
  port : string;
  pathname : string;
  search : string;
  fragment : string
}.

Definition set_hostname (h : string) (u : URL) : URL :=
  mkURL (protocol u) h (port u) (pathname u) (search u) (fragment u).

(** The [pathname] setter.  Every value this program assigns is a
    serialised path, or one followed by hexadecimal digits, which the
    setter's parse leaves as it is. *)
Definition set_pathname (p : string) (u : URL) : URL :=
  mkURL (protocol u) (hostname u) (port u) p (search u) (fragment u).

(** [url.hostname = provider.hostname; url.pathname = provider.pathname] *)
Definition retarget (provider : URL) (url : URL) : URL :=
  set_pathname (pathname provider) (set_hostname (hostname provider) url).

Definition URL_toString (u : URL) : string :=
  protocol u +:+ "//" +:+ hostname u
    +:+ (if String.eqb (port u) "" then "" else ":" +:+ port u)
    +:+ pathname u +:+ search u +:+ fragment u.

(** [Headers]: names are case-insensitive and kept in lower case. *)
Abbreviation Headers := (gmap string string).

Definition Headers_get (name : string) (h : Headers) : option string :=
  h !! toLowerCase name.

Definition Headers_set (name value : string) (h : Headers) : Headers :=
  <[toLowerCase name := value]> h.

(** [new Headers({ ... })] from an object literal. *)
Definition Headers_of (l : list (string * string)) : Headers :=
  fold_left (fun h '(k, v) => Headers_set k v h) l ∅.

Record Request := mkRequest {
  req_method : string;
  req_url : URL;
  req_headers : Headers;
  req_body : option string
}.

(** A response.  One with a null body status (101, 204, 205, 304) has no
    body. *)
Record Response := mkResponse {
  status : Z;
  statusText : string;
  res_headers : Headers;
  res_body : option string
}.

Definition ok (r : Response) : bool := ((200 <=? status r) && (status r <=? 299))%Z.

Record FetchEvent := mkFetchEvent { ev_request : Request }.

(** What is thrown. *)
Inductive Exn :=
| TypeError (message : string)
| SyntaxError (message : string)
| Error_ (message : string).

(** ** The environment of one request

    How a call of [fetch] settles: after [latency] milliseconds, with a
    response or a rejection, or never.  [before_timer] says which of the
    two callbacks the event loop runs first when the fetch settles in the
    very millisecond the timer fires. *)
Inductive FetchResult :=
| Responds (r : Response)
| Rejects (e : Exn).

Record Settlement := mkSettlement {
  latency : N;
  before_timer : bool;
  result : FetchResult
}.

(** A promise returned by [fetch]: [None] never settles. *)
Definition FetchPromise : Type := option Settlement.

(** What a handler does to the outside, in order. *)
Inductive Effect :=
| Console_log (args : list string)
| Console_error (e : Exn)
| Fetch_call (url : string) (init : Request)
| Cache_match (key : Request)
| Cache_put (key : Request) (response : Response)
| Wait_until.

(** The runtime the worker is deployed on: the edge cache
    ([caches.default]), [JSON.parse], and whether [status], [statusText]
    and the like are own enumerable properties of a [Response] (they were
    on the Workers runtime of the time, and an object spread copies them)
    or accessors on its prototype (a spread then copies nothing). *)
Class Runtime := {
  store : Type;
  cache_match : store -> Request -> option Response;
  cache_put : store -> Request -> Response -> store;
  JSON_parse : string -> option JSON;
  response_own_props : bool
}.

(** The environment variables once the module has resolved them
    ([EDGE_CACHE_TTL || 60], [BROWSER_CACHE_TTL || 0],
    [JSON.parse(PROVIDERS)] with every entry a URL, [PROVIDER_TIMEOUT ||
    5000], a delay that [setTimeout] takes as it is). *)
Class Config := {
  EDGE_CACHE_TTL : N;
  BROWSER_CACHE_TTL : N;
  PROVIDERS : list URL;
  PROVIDER_TIMEOUT : N
}.

Section Worker.

Context {rt : Runtime} {cfg : Config}.

(** The state a handler runs in: the edge cache, what it has done so
    far, the answers [Math.random] and the network are going to give
    (by number of the call). *)
Record World := mkWorld {
  cache : store;
  trace : list Effect;
  randoms : nat -> Q;
  drawn : nat;
  network : nat -> FetchPromise;
  fetched : nat
}.

(** *** Asynchronous computations

    An [async] function is run to the end: it returns, throws, or is
    still [Pending] when the fuel of the loop is spent. *)
Inductive Outcome (A : Type) :=
| Returns (a : A)
| Throws (e : Exn)
| Pending.
Global Arguments Returns {A} a.
Global Arguments Throws {A} e.
Global Arguments Pending {A}.

Definition M (A : Type) : Type := World -> Outcome A * World.

Definition ret {A} (a : A) : M A := fun w => (Returns a, w).
Definition throw {A} (e : Exn) : M A := fun w => (Throws e, w).
Definition pending {A} : M A := fun w => (Pending, w).

Definition bind {A B} (m : M A) (k : A -> M B) : M B :=
  fun w =>
    match m w with
    | (Returns a, w') => k a w'
    | (Throws e, w') => (Throws e, w')
    | (Pending, w') => (Pending, w')
    end.

(** [try { m } catch (e) { h e }] *)
Definition try_catch {A} (m : M A) (h : Exn -> M A) : M A :=
  fun w =>
    match m w with
    | (Throws e, w') => h e w'
    | r => r
    end.

Definition emit (e : Effect) : M unit :=
  fun w => (Returns tt,
            mkWorld (cache w) (trace w ++ [e]) (randoms w) (drawn w)
                    (network w) (fetched w)).

End Worker.

Declare Scope js_scope.
Delimit Scope js_scope with js.
Notation "'let*' x ':=' m 'in' k" := (bind m (fun x => k))
  (at level 10, x pattern, m at level 100, k at level 200) : js_scope.

(** ** Numbers

    A JavaScript number is a double.  [Math.random()] returns one in
    [[0, 1)] and [PROVIDERS.length] is an integer below [2^32], which is
    a double as it is; their product is rounded to the nearest double,
    ties to even, before [Math.floor] sees it.  The rounding is given
    for the rationals this program can reach: not negative, and far
    below the largest double. *)

Module Double.

Definition pow2 (e : Z) : Q := (2 ^ e)%Q.

(** The [e] with [2^e <= x < 2^(e+1)], for [x > 0]. *)
Definition binade (x : Q) : Z :=
  let d := (Z.log2 (Qnum x) - Z.log2 (Zpos (Qden x)))%Z in
  if Qle_bool (pow2 d) x then d else (d - 1)%Z.

(** The nearest integer, the even one of two that are as near. *)
Definition nearest_even (y : Q) : Z :=
  let f := Qfloor y in
  match (y - inject_Z f ?= 1 # 2)%Q with
  | Lt => f
  | Gt => (f + 1)%Z
  | Eq => if Z.even f then f else (f + 1)%Z
  end.

(** The nearest double: 53 significant bits, and no exponent below
    [-1022], where the subnormal numbers keep the spacing [2^-1074]. *)
Definition round (x : Q) : Q :=
  if Qle_bool x 0 then 0%Q
  else
    let e := Z.max (binade x) (-1022) in
    let ulp := pow2 (e - 52) in
    (inject_Z (nearest_even (x / ulp)) * ulp)%Q.

(** Half the spacing of the doubles just above 1, relative to 1. *)
Definition eps : Q := pow2 (-53).

End Double.

(** [u] is a double. *)
Definition is_double (u : Q) : Prop := (Double.round u == u)%Q.

(** ** The worker *)

(** The second argument of [new Response(body, init)]. *)
Record ResponseInit := mkInit {
  init_status : option Z;
  init_statusText : option string;
  init_headers : option Headers
}.

(** Its first argument: the stream of another response, or a string. *)
Inductive BodyInit :=
| Stream (body : option string)
| Text (s : string).

(** The value passed where [getOriginResponse] expects the event: the
    fetch event, or (as [handleGet] does) its request. *)
Inductive EventArg :=
| IsEvent (event : FetchEvent)
| IsRequest (request : Request).

Section Handlers.

Context {rt : Runtime} {cfg : Config}.
Local Open Scope js_scope.

(** *** Platform calls *)

Definition Math_random : M Q :=
  fun w => (Returns (randoms w (drawn w)),
            mkWorld (cache w) (trace w) (randoms w) (S (drawn w))
                    (network w) (fetched w)).

Definition fetch (url : URL) (init : Request) : M FetchPromise :=
  fun w => (Returns (network w (fetched w)),
            mkWorld (cache w) (trace w ++ [Fetch_call (URL_toString url) init])
                    (randoms w) (drawn w) (network w) (S (fetched w))).

Definition console_log (args : list string) : M unit := emit (Console_log args).
Definition console_error (e : Exn) : M unit := emit (Console_error e).

(** [cache.match(key)] *)
Definition caches_match (key : Request) : M (option Response) :=
  let* _ := emit (Cache_match key) in
  fun w => (Returns (cache_match (cache w) key), w).

(** [cache.put(key, response)] *)
Definition caches_put (key : Request) (response : Response) : M unit :=
  let* _ := emit (Cache_put key response) in
  fun w => (Returns tt,
            mkWorld (cache_put (cache w) key response) (trace w) (randoms w)
                    (drawn w) (network w) (fetched w)).

(** [request.clone()], [request] being [event.request] or [undefined].
    The body of [event.request] itself is never read (every reader
    works on a clone), so cloning a request succeeds. *)
Definition Request_clone (request : option Request) : M Request :=
  match request with
  | None => throw (TypeError "Cannot read properties of undefined (reading 'clone')")
  | Some r => ret r
  end.

(** [body.json()] on a request or response that has not been read. *)
Definition json (body : option string) : M JSON :=
  match JSON_parse (default "" body) with
  | Some j => ret j
  | None => throw (SyntaxError "Unexpected token in JSON")
  end.

(** [new Response(body, init)].  A string body brings its content type
    when [init] names none.  The constructor's checks cannot fail here:
    every status comes from a response of the platform. *)
Definition new_Response (body : BodyInit) (init : ResponseInit) : Response :=
  let st := default 200%Z (init_status init) in
  let stt := default "" (init_statusText init) in
  let h := default ∅ (init_headers init) in
  match body with
  | Stream b => mkResponse st stt h b
  | Text s =>
      let h' := match h !! "content-type" with
                | Some _ => h
                | None => <["content-type" := "text/plain;charset=UTF-8"]> h
                end in
      mkResponse st stt h' (Some s)
  end.

(** A response passed as [init]: its properties are read. *)
Definition init_of (r : Response) : ResponseInit :=
  mkInit (Some (status r)) (Some (statusText r)) (Some (res_headers r)).

(** [{ ...response, headers }] *)
Definition spread_with_headers (r : Response) (headers : Headers) : ResponseInit :=
  if response_own_props
  then mkInit (Some (status r)) (Some (statusText r)) (Some headers)
  else mkInit None None (Some headers).

Definition event_request (event : EventArg) : option Request :=
  match event with
  | IsEvent e => Some (ev_request e)
  | IsRequest _ => None
  end.

(** [event.waitUntil(promise)], the promise already made. *)
Definition waitUntil (event : EventArg) : M unit :=
  match event with
  | IsEvent _ => emit Wait_until
  | IsRequest _ => throw (TypeError "event.waitUntil is not a function")
  end.

(** *** [fetchWithTimeout]

    [Promise.race] of the fetch and of a timer that rejects after
    [timeout] milliseconds. *)
Definition fetch_first (s : Settlement) (timeout : N) : bool :=
  (latency s <? timeout) || ((latency s =? timeout) && before_timer s).

Definition Promise_race (p : FetchPromise) (timeout : N) : M Response :=
  match p with
  | Some s =>
      if fetch_first s timeout
      then match result s with
           | Responds r => ret r
           | Rejects e => throw e
           end
      else throw (Error_ "Timeout")
  | None => throw (Error_ "Timeout")
  end.

Definition fetchWithTimeout (url : URL) (request : Request) (timeout : N)
  : M Response :=
  let* p := fetch url request in
  Promise_race p timeout.

(** *** [tryProvider] *)

(** [Math.floor(Math.random() * PROVIDERS.length)]: the floor of the
    product as a double. *)
Definition pick (u : Q) (n : nat) : Z :=
  Qfloor (Double.round (u * inject_Z (Z.of_nat n))).

(** [new URL(PROVIDERS[i])]; [PROVIDERS[i]] is [undefined] out of range. *)
Definition provider_at (i : Z) : M URL :=
  match (if (i <? 0)%Z then None else PROVIDERS !! Z.to_nat i) with
  | Some p => ret p
  | None => throw (TypeError "Invalid URL")
  end.

Fixpoint tryProvider (fuel : nat) (url : URL) (request : option Request)
  : M Response :=
  match fuel with
  | O => pending
  | S fuel' =>
      let* u := Math_random in
      let* provider := provider_at (pick u (length PROVIDERS)) in
      let* _ := console_log ["Attempting provider: "; hostname provider] in
      let url := retarget provider url in
      try_catch
        (let* clone := Request_clone request in
         let* response := fetchWithTimeout url clone PROVIDER_TIMEOUT in
         if negb (ok response)
         then throw (Error_ (URL_toString url +:+ " not ok!"))
         else ret response)
        (fun e =>
           let* _ := console_error e in
           tryProvider fuel' url request)
  end.

(** *** [getOriginResponse] *)
Definition getOriginResponse (fuel : nat) (url : URL) (event : EventArg)
    (cacheKey : option Request) : M Response :=
  let* response := tryProvider fuel url (event_request event) in
  match cacheKey with
  | None => ret response
  | Some cacheKey =>
      let headers :=
        Headers_of [("Cache-Control", "public, max-age=" +:+ pretty EDGE_CACHE_TTL)] in
      let response :=
        new_Response (Stream (res_body response))
                     (spread_with_headers response headers) in
      let* _ := caches_put cacheKey response in
      let* _ := waitUntil event in
      ret response
  end.

(** *** [formatResponse] *)
Definition formatResponse (response : Response) (body : option Obj)
  : M Response :=
  let* formattedResponse :=
    match body with
    | Some body =>
        let* originalBody := json (res_body response) in
        let fullBody := JSON_stringify_object (spread2 originalBody body) in
        ret (new_Response (Text fullBody) (init_of response))
    | None =>
        ret (new_Response (Stream (res_body response)) (init_of response))
    end in
  let h := res_headers formattedResponse in
  let h := Headers_set "Cache-Control" ("max-age=" +:+ pretty BROWSER_CACHE_TTL) h in
  let h := Headers_set "Access-Control-Allow-Method" "*" h in
  let h := Headers_set "Access-Control-Allow-Origin" "*" h in
  let h := Headers_set "Access-Control-Allow-Headers" "*" h in
  ret (mkResponse (status formattedResponse) (statusText formattedResponse) h
                  (res_body formattedResponse)).

(** *** [handleOptions] *)
Definition handleOptions (event : FetchEvent) : M Response :=
  let request := ev_request event in
  let headers := req_headers request in
  match Headers_get "Origin" headers,
        Headers_get "Access-Control-Request-Method" headers,
        Headers_get "Access-Control-Request-Headers" headers with
  | Some _, Some _, Some requested =>
      let respHeaders :=
        Headers_of [("Access-Control-Allow-Origin", "*");
                    ("Access-Control-Allow-Methods", "GET,HEAD,POST,OPTIONS");
                    ("Access-Control-Max-Age", "86400");
                    ("Access-Control-Allow-Headers", requested)] in
      ret (new_Response (Stream None) (mkInit None None (Some respHeaders)))
  | _, _, _ =>
      ret (new_Response (Stream None)
             (mkInit None None
                (Some (Headers_of [("Allow", "GET, HEAD, POST, OPTIONS")]))))
  end.

(** *** [handleGet] *)
Definition handleGet (fuel : nat) (event : FetchEvent) : M Response :=
  let request := ev_request event in
  let url := req_url request in
  let* response := caches_match request in
  let* response :=
    match response with
    | Some response => ret response
    | None => getOriginResponse fuel url (IsRequest request) (Some request)
    end in
  formatResponse response None.

(** *** [handlePost] *)

(** [method === name] *)
Definition is_string (v : jsval) (name : string) : bool :=
  match v with
  | Some (JStr s) => String.eqb s name
  | _ => false
  end.

Definition bypassCache (method : jsval) : bool :=
  is_string method "eth_blockNumber" || is_string method "eth_estimateGas".

(** The cache key of a request whose body holds [params]: the lines of
    [handlePost] from [JSON.stringify(body.params)] to [new Request]. *)
Definition cacheKey_of (request : Request) (params : jsval) : Request :=
  let url := req_url request in
  let cacheableBody := JSON_stringify params in
  let hash := sha256 cacheableBody in
  let url := set_pathname ("/posts" +:+ pathname url +:+ hash) url in
  mkRequest "GET" url (req_headers request) None.

Definition handlePost (fuel : nat) (event : FetchEvent) : M Response :=
  let request := ev_request event in
  let url := req_url request in
  let* clone := Request_clone (Some request) in
  let* body := json (req_body clone) in
  match body with
  | JNull => throw (TypeError "Cannot destructure 'body' as it is null")
  | _ =>
      let method := get_prop "method" body in
      let id := get_prop "id" body in
      let jsonrpc := get_prop "jsonrpc" body in
      if bypassCache method then
        let* response := getOriginResponse fuel url (IsEvent event) None in
        formatResponse response (Some [("id", id)])
      else
        let cacheable :=
          copy_props (from_option own_props [] (get_prop "params" body))
                     [("method", method); ("jsonrpc", jsonrpc)] in
        let cacheKey := cacheKey_of request (get_prop "params" body) in
        let url := req_url cacheKey in
        let* response := caches_match cacheKey in
        let* response :=
          match response with
          | Some response => ret response
          | None => getOriginResponse fuel url (IsEvent event) (Some cacheKey)
          end in
        formatResponse response (Some [("id", id)])
  end.

(** *** The fetch listener *)
Definition on_fetch (fuel : nat) (event : FetchEvent) : M Response :=
  let request := ev_request event in
  if String.eqb (toUpperCase (req_method request)) "OPTIONS" then
    handleOptions event
  else if String.eqb (toUpperCase (req_method request)) "POST" then
    handlePost fuel event
  else handleGet fuel event.

End Handlers.

(** ** Vocabulary of the statements *)

Section Vocabulary.

Context {rt : Runtime} {cfg : Config}.

(** Whether a computation has produced its value. *)
Definition answered {A} (o : Outcome A) : bool :=
  match o with
  | Returns _ => true
  | _ => false
  end.

(** The [j]-th pass of a call of [tryProvider] entered in world [w]:
    the number it draws, the provider that number selects, and the
    promise its [fetch] gets. *)
Definition draw (w : World) (j : nat) : Q := randoms w (j + drawn w).

Definition select (u : Q) : option URL :=
  let i := pick u (length PROVIDERS) in
  if (i <? 0)%Z then None else PROVIDERS !! Z.to_nat i.

Definition chosen (w : World) (j : nat) : URL :=
  default (mkURL "" "" "" "" "" "") (select (draw w j)).

Definition promise (w : World) (j : nat) : FetchPromise :=
  network w (j + fetched w).

(** How one attempt ends. *)
Definition succeeded (p : FetchPromise) (r : Response) : Prop :=
  ∃ s, p = Some s ∧ fetch_first s PROVIDER_TIMEOUT = true
       ∧ result s = Responds r ∧ ok r = true.

Definition timed_out (p : FetchPromise) : Prop :=
  p = None ∨ ∃ s, p = Some s ∧ fetch_first s PROVIDER_TIMEOUT = false.

Definition network_failed (p : FetchPromise) (e : Exn) : Prop :=
  ∃ s, p = Some s ∧ fetch_first s PROVIDER_TIMEOUT = true ∧ result s = Rejects e.

Definition not_ok (p : FetchPromise) : Prop :=
  ∃ s r, p = Some s ∧ fetch_first s PROVIDER_TIMEOUT = true
         ∧ result s = Responds r ∧ ok r = false.

(** The attempt against [target] failed, and [e] is what was caught. *)
Definition failed (target : URL) (p : FetchPromise) (e : Exn) : Prop :=
  (timed_out p ∧ e = Error_ "Timeout")
  ∨ network_failed p e
  ∨ (not_ok p ∧ e = Error_ (URL_toString target +:+ " not ok!")).

(** The same, computed. *)
Definition verdict (target : URL) (p : FetchPromise) : Response + Exn :=
  match p with
  | Some s =>
      if fetch_first s PROVIDER_TIMEOUT
      then match result s with
           | Responds r =>
               if ok r then inl r
               else inr (Error_ (URL_toString target +:+ " not ok!"))
           | Rejects e => inr e
           end
      else inr (Error_ "Timeout")
  | None => inr (Error_ "Timeout")
  end.

(** What pass [j] does to the outside. *)
Definition pass_effects (url : URL) (request : Request) (w : World) (j : nat)
  : list Effect :=
  let target := retarget (chosen w j) url in
  [Console_log ["Attempting provider: "; hostname (chosen w j)];
   Fetch_call (URL_toString target) request]
  ++ match verdict target (promise w j) with
     | inl _ => []
     | inr e => [Console_error e]
     end.

(** The world [w] after the effects [effs], [d] more draws and [f] more
    fetches. *)
Definition advance (w : World) (effs : list Effect) (d f : nat) : World :=
  mkWorld (cache w) (trace w ++ effs) (randoms w) (d + drawn w)
          (network w) (f + fetched w).

(** The world after the passes [0 .. k-1]. *)
Definition after (url : URL) (request : Request) (w : World) (k : nat) : World :=
  advance w (flat_map (pass_effects url request w) (seq 0 k)) k k.

Definition is_cache_effect (e : Effect) : bool :=
  match e with
  | Cache_match _ | Cache_put _ _ => true
  | _ => false
  end.

(** The headers that [getOriginResponse] stamps on what it stores. *)
Definition edge_headers : Headers :=
  {[ "cache-control" := "public, max-age=" +:+ pretty EDGE_CACHE_TTL ]}.

(** What [getOriginResponse] stores for the origin's response [r]. *)
Definition stored_as (r : Response) : Response :=
  new_Response (Stream (res_body r)) (spread_with_headers r edge_headers).

(** The world [w] once [stored] is put in the cache under [key]. *)
Definition put_world (w : World) (key : Request) (stored : Response)
    (effs : list Effect) : World :=
  mkWorld (cache_put (cache w) key stored) (trace w ++ effs) (randoms w)
          (drawn w) (network w) (fetched w).

(** [response] carries the body of an ok answer that some fetch of the
    world [w] got before its timer. *)
Definition from_origin (w : World) (response : Response) : Prop :=
  ∃ n s r0, network w n = Some s
            ∧ fetch_first s PROVIDER_TIMEOUT = true
            ∧ result s = Responds r0 ∧ ok r0 = true
            ∧ res_body response = res_body r0.

(** The headers of every formatted response. *)
Definition client_headers (r : Response) : Prop :=
  Headers_get "Cache-Control" (res_headers r)
  = Some ("max-age=" +:+ pretty BROWSER_CACHE_TTL)
  ∧ Headers_get "Access-Control-Allow-Origin" (res_headers r) = Some "*"
  ∧ Headers_get "Access-Control-Allow-Method" (res_headers r) = Some "*"
  ∧ Headers_get "Access-Control-Allow-Headers" (res_headers r) = Some "*".

(** The parsed body of the request of an event. *)
Definition body_of (event : FetchEvent) : option JSON :=
  JSON_parse (default "" (req_body (ev_request event))).

(** Two lowercase hexadecimal digits. *)
Definition two_hex (b : N) : string :=
  String (hex_digit (b / 16)) (String (hex_digit (b mod 16)) "").

End Vocabulary.

(** ** A concrete platform to run the handlers on *)

Module Fixture.

(** An edge cache keyed by the URL of a GET request. *)
Definition url_cache : Type := list (string * Response).

Definition fx_match (c : url_cache) (key : Request) : option Response :=
  if String.eqb (req_method key) "GET"
  then snd <$> List.find (fun p => String.eqb (fst p) (URL_toString (req_url key))) c
  else None.

Definition fx_put (c : url_cache) (key : Request) (r : Response) : url_cache :=
  (URL_toString (req_url key), r) :: c.

(** A [JSON.parse] that knows the listed documents by their canonical
    text and rejects every other text. *)
Definition fx_parse (docs : list JSON) (s : string) : option JSON :=
  List.find (fun j => String.eqb (stringify j) s) docs.

Definition eth_call (id : JSON) : JSON :=
  JObj [("jsonrpc", JStr "2.0"); ("id", id); ("method", JStr "eth_call");
        ("params", JArr [JStr "0xabc"; JStr "latest"])].

Definition no_id : JSON :=
  JObj [("method", JStr "eth_call"); ("params", JArr [])].

Definition blockNumber : JSON :=
  JObj [("jsonrpc", JStr "2.0"); ("id", JNum 7); ("method", JStr "eth_blockNumber");
        ("params", JArr [])].

Definition getBalance : JSON :=
  JObj [("jsonrpc", JStr "2.0"); ("id", JNum 1); ("method", JStr "eth_getBalance");
        ("params", JArr [JStr "0xabc"; JStr "latest"])].

Definition getTransactionCount : JSON :=
  JObj [("jsonrpc", JStr "2.0"); ("id", JNum 1);
        ("method", JStr "eth_getTransactionCount");
        ("params", JArr [JStr "0xabc"; JStr "latest"])].

Definition answer : JSON :=
  JObj [("jsonrpc", JStr "2.0"); ("id", JNum 99); ("result", JStr "0x10")].

Definition docs : list JSON :=
  [eth_call (JStr "abc"); no_id; blockNumber; getBalance; getTransactionCount; answer].

#[export] Instance runtime : Runtime := {|
  store := url_cache;
  cache_match := fx_match;
  cache_put := fx_put;
  JSON_parse := fx_parse docs;
  response_own_props := true
|}.

Definition providerA : URL := mkURL "https:" "a.example" "" "/rpc" "" "".
Definition providerB : URL := mkURL "https:" "b.example" "" "/v3/key" "" "".

#[export] Instance config : Config := {|
  EDGE_CACHE_TTL := 60;
  BROWSER_CACHE_TTL := 0;
  PROVIDERS := [providerA; providerB];
  PROVIDER_TIMEOUT := 5000
|}.

Definition here : URL := mkURL "https:" "proxy.example" "" "/" "" "".

Definition post (body : JSON) : FetchEvent :=
  mkFetchEvent
    (mkRequest "POST" here {[ "content-type" := "application/json" ]}
               (Some (stringify body))).

Definition get : FetchEvent :=
  mkFetchEvent (mkRequest "GET" here ∅ None).

Definition reply (st : Z) (body : JSON) : Response :=
  mkResponse st "" {[ "content-type" := "application/json" ]} (Some (stringify body)).

(** A world with an empty cache, in which [Math.random] and the network
    answer from the given lists and then repeat [0] and silence. *)
Definition world (us : list Q) (net : list FetchPromise) : World :=
  mkWorld [] [] (fun n => nth n us 0%Q) 0 (fun n => nth n net None) 0.

Definition in_ (ms : N) (r : FetchResult) : FetchPromise :=
  Some (mkSettlement ms false r).

(** [Math.random] first picks provider B, which answers after the
    timeout, then provider A, which answers in time. *)
Definition slow_then_fast : World :=
  world [(3 # 4)%Q; (1 # 4)%Q]
        [in_ 9000 (Responds (reply 200 answer));
         in_ 20 (Responds (reply 200 answer))].

(** A world in which the first fetch is answered at once. *)
Definition answering : World :=
  world [(1 # 8)%Q] [in_ 20 (Responds (reply 200 answer))].

Definition asked : Request := ev_request (post (eth_call (JStr "abc"))).

Definition params_abc : JSON := JArr [JStr "0xabc"; JStr "latest"].

(** A POST with no body at all. *)
Definition bodyless : FetchEvent := mkFetchEvent (mkRequest "POST" here ∅ None).

End Fixture.

(** ** Vocabulary of the further statements *)

(** The names of the headers that [formatResponse] sets. *)
Definition set_by_format (name : string) : Prop :=
  toLowerCase name = "cache-control"
  ∨ toLowerCase name = "access-control-allow-method"
  ∨ toLowerCase name = "access-control-allow-origin"
  ∨ toLowerCase name = "access-control-allow-headers".

(** A lowercase hexadecimal digit. *)
Definition is_lower_hex (c : ascii) : bool :=
  let n := N_of_ascii c in
  ((48 <=? n) && (n <=? 57)) || ((97 <=? n) && (n <=? 102)).

(** The URL a pass fetches when it has drawn [provider]: the provider's
    host and path, everything else from the URL of the request. *)
Definition target_of (url provider : URL) : URL :=
  mkURL (protocol url) (hostname provider) (port url) (pathname provider)
        (search url) (fragment url).


(** ** The earlier revision of the worker, [src/index.js]

    [sha256], [formatResponse], [handleOptions] and the lines that build
    the cache key are the same text in both revisions and are shared.
    The loop, [getOriginResponse] and [handlePost] differ: the fetch has
    no timer, its answer is not checked, the request itself is handed
    to every fetch, there is no log of the attempt, every answer is
    stored and no method bypasses the cache. *)

Module Earlier.

Section Handlers.

Context {rt : Runtime} {cfg : Config}.
Local Open Scope js_scope.

(** [await] of the promise of a fetch.  Nothing bounds the wait: on a
    promise that never settles the caller stays [Pending]. *)
Definition await (p : FetchPromise) : M Response :=
  match p with
  | Some s =>
      match result s with
      | Responds r => ret r
      | Rejects e => throw e
      end
  | None => pending
  end.

(** The request [fetch(url, request)] makes when [request] is
    [undefined]: a GET of [url] with no header and no body. *)
Definition bare (url : URL) : Request := mkRequest "GET" url ∅ None.

Definition init_or_bare (url : URL) (request : option Request) : Request :=
  match request with
  | Some r => r
  | None => bare url
  end.

(** Every pass hands the request it was given to [fetch], not a clone.
    What the platform makes of a request that an earlier fetch has read
    is part of what the network answers to that call. *)
Fixpoint tryProvider (fuel : nat) (url : URL) (request : option Request)
  : M Response :=
  match fuel with
  | O => pending
  | S fuel' =>
      let* u := Math_random in
      let* provider := provider_at (pick u (length PROVIDERS)) in
      let url := retarget provider url in
      try_catch
        (let* p := fetch url (init_or_bare url request) in
         await p)
        (fun e =>
           let* _ := console_error e in
           tryProvider fuel' url request)
  end.

Definition getOriginResponse (fuel : nat) (url : URL) (event : EventArg)
    (cacheKey : Request) : M Response :=
  let* response := tryProvider fuel url (event_request event) in
  let headers :=
    Headers_of [("Cache-Control", "public, max-age=" +:+ pretty EDGE_CACHE_TTL)] in
  let response :=
    new_Response (Stream (res_body response))
                 (spread_with_headers response headers) in
  let* _ := caches_put cacheKey response in
  let* _ := waitUntil event in
  ret response.

Definition handleGet (fuel : nat) (event : FetchEvent) : M Response :=
  let request := ev_request event in
  let url := req_url request in
  let* response := caches_match request in
  let* response :=
    match response with
    | Some response => ret response
    | None => getOriginResponse fuel url (IsRequest request) request
    end in
  formatResponse response None.

Definition handlePost (fuel : nat) (event : FetchEvent) : M Response :=
  let request := ev_request event in
  let url := req_url request in
  let* clone := Request_clone (Some request) in
  let* body := json (req_body clone) in
  match body with
  | JNull => throw (TypeError "Cannot read properties of null (reading 'id')")
  | _ =>
      let id := get_prop "id" body in
      let cacheKey := cacheKey_of request (get_prop "params" body) in
      let url := req_url cacheKey in
      let* response := caches_match cacheKey in
      let* response :=
        match response with
        | Some response => ret response
        | None => getOriginResponse fuel url (IsEvent event) cacheKey
        end in
      formatResponse response (Some [("id", id)])
  end.

Definition on_fetch (fuel : nat) (event : FetchEvent) : M Response :=
  let request := ev_request event in
  if String.eqb (toUpperCase (req_method request)) "OPTIONS" then
    handleOptions event
  else if String.eqb (toUpperCase (req_method request)) "POST" then
    handlePost fuel event
  else handleGet fuel event.

(** The fetch of pass [j] was rejected with [e]. *)
Definition rejected (p : FetchPromise) (e : Exn) : Prop :=
  ∃ s, p = Some s ∧ result s = Rejects e.

(** The fetch of pass [j] was answered with [r], at any time, with any
    status. *)
Definition responded (p : FetchPromise) (r : Response) : Prop :=
  ∃ s, p = Some s ∧ result s = Responds r.

(** What a pass whose fetch settles does to the outside. *)
Definition pass_effects (url : URL) (request : option Request) (w : World)
    (j : nat) : list Effect :=
  let target := retarget (chosen w j) url in
  Fetch_call (URL_toString target) (init_or_bare target request)
  :: match promise w j with
     | Some s =>
         match result s with
         | Responds _ => []
         | Rejects e => [Console_error e]
         end
     | None => []
     end.

(** The world after the passes [0 .. k-1]. *)
Definition after (url : URL) (request : option Request) (w : World) (k : nat)
  : World :=
  advance w (flat_map (pass_effects url request w) (seq 0 k)) k k.

End Handlers.

End Earlier.

(** ** More scenes on the concrete platform *)

Module Scenes.

Import Fixture.

(** A preflight from a browser, its method in lower case. *)
Definition preflight : FetchEvent :=
  mkFetchEvent
    (mkRequest "options" here
       (Headers_of [("Origin", "https://app.example");
                    ("Access-Control-Request-Method", "POST");
                    ("Access-Control-Request-Headers", "content-type")])
       None).

(** The world [w] with the cache [c]. *)
Definition holding (c : url_cache) (w : World) : World :=
  mkWorld c (trace w) (randoms w) (drawn w) (network w) (fetched w).

(** A cache that has an entry for the request of [get]. *)
Definition warm : World :=
  holding [(URL_toString here, reply 200 answer)] (world [] []).

(** The world after a first POST [eth_call] was answered and stored. *)
Definition stocked : World :=
  snd (handlePost 1 (post (eth_call (JStr "abc"))) answering).

(** An answer that is not JSON. *)
Definition page : Response :=
  mkResponse 200 "OK" {[ "content-type" := "text/html" ]} (Some "<html>").

Definition serving_page : World :=
  world [(1 # 8)%Q] [in_ 20 (Responds page)].

(** A worker that was configured with no provider. *)
Definition no_providers : Config := {|
  EDGE_CACHE_TTL := 60;
  BROWSER_CACHE_TTL := 0;
  PROVIDERS := [];
  PROVIDER_TIMEOUT := 5000
|}.

(** A world in which no fetch ever settles. *)
Definition silent : World := world [] [].

(** An origin that answers with an error status, long after any
    timeout. *)
Definition failing : World :=
  world [(1 # 8)%Q] [in_ 60000 (Responds (reply 500 answer))].

(** An origin whose answer has a status, a status text and a header of
    its own. *)
Definition created : Response :=
  mkResponse 201 "Created"
    {[ "content-type" := "application/json"; "x-served-by" := "node-7" ]}
    (Some (stringify answer)).

Definition serving_created : World :=
  world [(1 # 8)%Q] [in_ 20 (Responds created)].

(** A fetch that is rejected, then an answer. *)
Definition rejecting_once : World :=
  world [(3 # 4)%Q; (1 # 4)%Q]
        [in_ 5 (Rejects (TypeError "Network connection lost"));
         in_ 20 (Responds (reply 200 answer))].

End Scenes.
(** * Properties *)

(** ** Strings, hexadecimal digits and the digest *)

Example sha256_empty :
  sha256 (Some "") = "e3b0c44298fc1c149afbf4c8996fb92427ae41e4649b934ca495991b7852b855".
Proof. vm_compute. reflexivity. Qed.

Example sha256_abc :
  sha256 (Some "abc") = "ba7816bf8f01cfea414140de5dae2223b00361a396177a9cb410ff61f20015ad".
Proof. vm_compute. reflexivity. Qed.

(** A message of two blocks. *)
Example sha256_two_blocks :
  sha256 (Some "abcdbcdecdefdefgefghfghighijhijkijkljklmklmnlmnomnopnopq")
  = "248d6a61d20638b8e5c026930c3e6039a33ce45964ff2167f6ecedd419db06c1".
Proof. vm_compute. reflexivity. Qed.

Lemma string_app_cons (c : ascii) (x y : string) :
  String c x +:+ y = String c (x +:+ y).
Proof. reflexivity. Qed.

Lemma string_app_nil (x : string) : x +:+ "" = x.
Proof.
  induction x as [|c x IH]; [reflexivity|].
  by rewrite string_app_cons, IH.
Qed.

Lemma join_empty_sep (l : list string) :
  join "" l = fold_right String.append "" l.
Proof.
  induction l as [|x rest IH]; [reflexivity|].
  cbn [join fold_right]. destruct rest as [|y rest'].
  - cbn [fold_right]. by rewrite string_app_nil.
  - by rewrite <- IH.
Qed.

Lemma string_length_app (a b : string) :
  String.length (a +:+ b) = (String.length a + String.length b)%nat.
Proof.
  induction a as [|c a IH]; [reflexivity|].
  rewrite string_app_cons. cbn [String.length]. by rewrite IH.
Qed.

Lemma hex_of_byte_two_hex (b : N) : b < 256 → hex_of_byte b = two_hex b.
Proof.
  intros Hb.
  assert (H : forallb (fun n => String.eqb (hex_of_byte n) (two_hex n))
                      (map N.of_nat (seq 0 256)) = true)
    by (vm_compute; reflexivity).
  rewrite forallb_forall in H.
  apply String.eqb_eq, H, in_map_iff.
  exists (N.to_nat b). split; [lia|]. apply in_seq. lia.
Qed.

Lemma be_bytes_small (k : nat) (x : N) : Forall (fun b => b < 256) (SHA256.be_bytes k x).
Proof.
  induction k as [|k IH]; cbn [SHA256.be_bytes]; constructor; [|exact IH].
  change 255 with (N.ones 8). rewrite N.land_ones.
  apply N.mod_lt. discriminate.
Qed.

Lemma be_bytes_length (k : nat) (x : N) : length (SHA256.be_bytes k x) = k.
Proof. induction k as [|k IH]; cbn [SHA256.be_bytes length]; congruence. Qed.

Lemma compress_length (h block : list N) :
  length h = 8%nat → length (SHA256.compress h block) = 8%nat.
Proof.
  intros Hh. unfold SHA256.compress.
  rewrite length_map, length_combine, Hh. reflexivity.
Qed.

Lemma digest_state_length (blocks : list (list N)) (h : list N) :
  length h = 8%nat → length (fold_left SHA256.compress blocks h) = 8%nat.
Proof.
  revert h. induction blocks as [|b blocks IH]; intros h Hh; [exact Hh|].
  cbn [fold_left]. apply IH, compress_length, Hh.
Qed.

Lemma concat_be_bytes_length (h : list N) :
  length (concat (map (SHA256.be_bytes 4) h)) = (4 * length h)%nat.
Proof.
  induction h as [|x h IH]; [reflexivity|].
  cbn [map concat]. rewrite length_app, be_bytes_length, IH. cbn [length]. lia.
Qed.

Lemma digest_length (msg : list N) : length (SHA256.digest msg) = 32%nat.
Proof.
  unfold SHA256.digest. rewrite concat_be_bytes_length, digest_state_length; reflexivity.
Qed.

Lemma digest_bytes (msg : list N) : Forall (fun b => b < 256) (SHA256.digest msg).
Proof.
  unfold SHA256.digest.
  generalize (fold_left SHA256.compress
                (SHA256.chunks (length (SHA256.pad msg)) 64 (SHA256.pad msg)) SHA256.H0).
  intros h. induction h as [|x h IH]; cbn [map concat]; [constructor|].
  apply Forall_app. split; [apply be_bytes_small | exact IH].
Qed.

(** [sha256] writes every byte of the digest as two lowercase
    hexadecimal digits, the high one first. *)
Lemma sha256_hex (message : option string) :
  sha256 message
  = join "" (map two_hex (SHA256.digest (TextEncoder_encode message))).
Proof.
  unfold sha256. f_equal.
  generalize (digest_bytes (TextEncoder_encode message)).
  generalize (SHA256.digest (TextEncoder_encode message)).
  intros d Hd. induction Hd as [|b d Hb _ IH]; [reflexivity|].
  cbn [map]. by rewrite IH, hex_of_byte_two_hex.
Qed.

Lemma sha256_length (message : option string) :
  String.length (sha256 message) = 64%nat.
Proof.
  rewrite sha256_hex, join_empty_sep.
  pose proof (digest_length (TextEncoder_encode message)) as Hlen.
  revert Hlen. generalize (SHA256.digest (TextEncoder_encode message)).
  intros d. change 64%nat with (2 * 32)%nat. generalize 32%nat.
  induction d as [|b d IH]; intros n Hn; cbn in Hn; subst n; [reflexivity|].
  cbn [map fold_right]. rewrite string_length_app, (IH _ eq_refl). cbn. lia.
Qed.

(** ** The failover loop *)

Section Failover.

Context {rt : Runtime} {cfg : Config}.

Lemma retarget_retarget (p q url : URL) :
  retarget p (retarget q url) = retarget p url.
Proof. reflexivity. Qed.

Lemma advance_advance (w : World) (e1 e2 : list Effect) (d1 d2 f1 f2 : nat) :
  advance (advance w e1 d1 f1) e2 d2 f2
  = advance w (e1 ++ e2) (d2 + d1) (f2 + f1).
Proof.
  unfold advance. cbn [cache trace randoms drawn network fetched].
  f_equal; [by rewrite app_assoc | lia | lia].
Qed.

Lemma advance_zero (w : World) : advance w [] 0 0 = w.
Proof. destruct w. unfold advance. cbn. by rewrite app_nil_r. Qed.

Lemma verdict_inl (target : URL) (p : FetchPromise) (r : Response) :
  verdict target p = inl r ↔ succeeded p r.
Proof.
  unfold verdict, succeeded. split.
  - destruct p as [s|]; [|discriminate].
    destruct (fetch_first s PROVIDER_TIMEOUT) eqn:Hf; [|discriminate].
    destruct (result s) as [r'|e] eqn:Hr; [|discriminate].
    destruct (ok r') eqn:Hok; [|discriminate].
    intros [= <-]. eauto.
  - intros (s & -> & -> & -> & ->). reflexivity.
Qed.

Lemma verdict_inr (target : URL) (p : FetchPromise) (e : Exn) :
  verdict target p = inr e ↔ failed target p e.
Proof.
  unfold verdict, failed, timed_out, network_failed, not_ok. split.
  - destruct p as [s|]; [|intros [= <-]; by left; split; [left|]].
    destruct (fetch_first s PROVIDER_TIMEOUT) eqn:Hf;
      [|intros [= <-]; left; split; [right; eauto | reflexivity]].
    destruct (result s) as [r'|e'] eqn:Hr.
    + destruct (ok r') eqn:Hok; [discriminate|].
      intros [= <-]. right; right. split; [|reflexivity]. eauto 10.
    + intros [= <-]. right; left. eauto.
  - intros [[[->|(s & -> & ->)] ->] | [(s & -> & -> & ->) | [(s & r & -> & -> & -> & ->) ->]]];
      reflexivity.
Qed.

(** The fetch wins the race only when it settles within the timeout. *)
Lemma fetch_first_in_time (s : Settlement) (timeout : N) :
  fetch_first s timeout = true → latency s <= timeout.
Proof.
  unfold fetch_first. intros H.
  apply orb_true_iff in H as [H | H].
  - apply N.ltb_lt in H. lia.
  - apply andb_true_iff in H as [H _]. apply N.eqb_eq in H. lia.
Qed.

(** One pass of the loop, whatever it was given as request. *)
Lemma tryProvider_unfold (fuel : nat) (url : URL) (request : option Request)
    (w : World) :
  tryProvider (S fuel) url request w
  = match select (draw w 0) with
    | None => (Throws (TypeError "Invalid URL"), advance w [] 1 0)
    | Some p =>
        let target := retarget p url in
        let log := Console_log ["Attempting provider: "; hostname p] in
        match request with
        | None =>
            tryProvider fuel target None
              (advance w
                 [log; Console_error
                         (TypeError "Cannot read properties of undefined (reading 'clone')")]
                 1 0)
        | Some req =>
            let call := Fetch_call (URL_toString target) req in
            match verdict target (promise w 0) with
            | inl r => (Returns r, advance w [log; call] 1 1)
            | inr e =>
                tryProvider fuel target (Some req)
                  (advance w [log; call; Console_error e] 1 1)
            end
        end
    end.
Proof.
  cbn [tryProvider]. unfold bind at 1, Math_random.
  unfold bind at 1, provider_at, select, draw. cbn [Nat.add randoms drawn].
  destruct (if (pick (randoms w (drawn w)) (length PROVIDERS) <? 0)%Z
            then None
            else PROVIDERS !! Z.to_nat (pick (randoms w (drawn w)) (length PROVIDERS)))
    as [p|]; cbn [ret throw].
  2: { unfold advance. cbn. by rewrite app_nil_r. }
  unfold bind at 1, console_log, emit.
  cbn [cache trace randoms drawn network fetched].
  unfold try_catch, bind at 1, Request_clone.
  destruct request as [req|]; cbn [ret throw].
  2: { unfold bind, console_error, emit, advance.
       cbn [cache trace randoms drawn network fetched].
       by rewrite <- app_assoc. }
  unfold bind at 1, fetchWithTimeout, bind at 1, fetch.
  cbn [cache trace randoms drawn network fetched].
  unfold Promise_race, verdict, promise. cbn [Nat.add].
  destruct (network w (fetched w)) as [s|]; cbn [throw].
  - destruct (fetch_first s PROVIDER_TIMEOUT); cbn [throw].
    + destruct (result s) as [r|e]; cbn [ret throw].
      * destruct (ok r); cbn [negb ret throw].
        -- unfold advance. cbn. by rewrite <- app_assoc.
        -- unfold bind, console_error, emit, advance.
           cbn [cache trace randoms drawn network fetched].
           by rewrite <- !app_assoc.
      * unfold bind, console_error, emit, advance.
        cbn [cache trace randoms drawn network fetched].
        by rewrite <- !app_assoc.
    + unfold bind, console_error, emit, advance.
      cbn [cache trace randoms drawn network fetched].
      by rewrite <- !app_assoc.
  - unfold bind, console_error, emit, advance.
    cbn [cache trace randoms drawn network fetched].
    by rewrite <- !app_assoc.
Qed.

(** What the loop leaves alone, whatever happens: the cache, and the
    future of the environment.  It performs no cache operation, it
    returns only the ok response of a fetch that won its race, and
    without a request it neither fetches nor returns. *)
Lemma tryProvider_frame (fuel : nat) :
  ∀ (url : URL) (request : option Request) (w : World) o w',
    tryProvider fuel url request w = (o, w') →
    ∃ effs d f,
      w' = advance w effs d f
      ∧ Forall (fun e => is_cache_effect e = false) effs
      ∧ (∀ r, o = Returns r →
           ∃ n s, (fetched w <= n < fetched w')%nat
                  ∧ network w n = Some s
                  ∧ fetch_first s PROVIDER_TIMEOUT = true
                  ∧ result s = Responds r ∧ ok r = true)
      ∧ (request = None → answered o = false ∧ f = 0%nat).
Proof.
  induction fuel as [|fuel IH]; intros url request w o w' Hrun.
  - cbn in Hrun. injection Hrun as <- <-.
    exists [], 0%nat, 0%nat. rewrite advance_zero.
    repeat split; [constructor | discriminate].
  - rewrite tryProvider_unfold in Hrun.
    destruct (select (draw w 0)) as [p|].
    2: { injection Hrun as <- <-. exists [], 1%nat, 0%nat.
         repeat split; [constructor | discriminate]. }
    cbn zeta in Hrun. destruct request as [req|].
    + destruct (verdict (retarget p url) (promise w 0)) as [r|e] eqn:Hv.
      * injection Hrun as <- <-.
        eexists _, 1%nat, 1%nat. split; [reflexivity|].
        split; [repeat constructor|]. split; [|discriminate].
        intros r' [= <-]. apply verdict_inl in Hv as (s & Hs & Hf & Hr & Hok).
        exists (fetched w), s. cbn. unfold promise in Hs. cbn in Hs.
        repeat split; try assumption; lia.
      * apply IH in Hrun as (effs & d & f & -> & Heffs & Hret & _).
        rewrite advance_advance.
        eexists _, _, _. split; [reflexivity|].
        split; [repeat constructor; exact Heffs|]. split; [|discriminate].
        intros r Hr. destruct (Hret r Hr) as (n & s & Hn & Hrest).
        exists n, s. cbn in Hn, Hrest |- *. split; [lia | exact Hrest].
    + apply IH in Hrun as (effs & d & f & -> & Heffs & _ & Hnone).
      destruct (Hnone eq_refl) as [Hans ->].
      rewrite advance_advance.
      eexists _, _, _. split; [reflexivity|].
      split; [repeat constructor; exact Heffs|].
      split; [intros r ->; discriminate|]. intros _. split; [exact Hans | reflexivity].
Qed.

(** *** Passes seen from the world the loop was entered in *)

Lemma draw_advance (w : World) (effs : list Effect) (f j : nat) :
  draw (advance w effs 1 f) j = draw w (S j).
Proof. unfold draw, advance. cbn. f_equal. lia. Qed.

Lemma chosen_advance (w : World) (effs : list Effect) (f j : nat) :
  chosen (advance w effs 1 f) j = chosen w (S j).
Proof. unfold chosen. by rewrite draw_advance. Qed.

Lemma promise_advance (w : World) (effs : list Effect) (d j : nat) :
  promise (advance w effs d 1) j = promise w (S j).
Proof. unfold promise, advance. cbn. f_equal. lia. Qed.

Lemma pass_effects_advance (p url : URL) (request : Request) (w : World)
    (effs : list Effect) (j : nat) :
  pass_effects (retarget p url) request (advance w effs 1 1) j
  = pass_effects url request w (S j).
Proof.
  unfold pass_effects.
  by rewrite chosen_advance, promise_advance, retarget_retarget.
Qed.

Lemma after_advance (p url : URL) (request : Request) (w : World) (k : nat) :
  after (retarget p url) request (advance w (pass_effects url request w 0) 1 1) k
  = after url request w (S k).
Proof.
  unfold after. rewrite advance_advance.
  replace (k + 1)%nat with (S k) by lia. f_equal.
  cbn [seq flat_map]. f_equal.
  rewrite <- seq_shift. generalize (seq 0 k). intros l.
  induction l as [|j l IHl]; [reflexivity|].
  cbn [map flat_map]. by rewrite pass_effects_advance, IHl.
Qed.

Lemma chosen_select (w : World) (j : nat) (p : URL) :
  select (draw w j) = Some p → chosen w j = p.
Proof. unfold chosen. by intros ->. Qed.

(** Pass [n] answers after [n] failures: the loop returns that answer. *)
Lemma tryProvider_answers (request : Request) (n : nat) :
  ∀ (fuel : nat) (url : URL) (w : World) (r : Response),
    (∀ j, is_Some (select (draw w j))) →
    (n < fuel)%nat →
    (∀ j, (j < n)%nat →
          ∃ e, verdict (retarget (chosen w j) url) (promise w j) = inr e) →
    verdict (retarget (chosen w n) url) (promise w n) = inl r →
    tryProvider fuel url (Some request) w
    = (Returns r, after url request w (S n)).
Proof.
  induction n as [|n IH]; intros fuel url w r Hsel Hfuel Hfail Hgood;
    (destruct fuel as [|fuel]; [lia|]);
    rewrite tryProvider_unfold; destruct (Hsel 0%nat) as [p Hp]; rewrite Hp;
    cbn zeta; rewrite <- (chosen_select _ _ _ Hp).
  - rewrite Hgood. unfold after, pass_effects. cbn [seq flat_map].
    rewrite Hgood, !app_nil_r. reflexivity.
  - destruct (Hfail 0%nat ltac:(lia)) as [e He]. rewrite He.
    assert (Heffs : [Console_log ["Attempting provider: "; hostname (chosen w 0)];
                     Fetch_call (URL_toString (retarget (chosen w 0) url)) request;
                     Console_error e]
                    = pass_effects url request w 0)
      by (unfold pass_effects; by rewrite He).
    rewrite Heffs, <- (after_advance (chosen w 0)).
    apply IH.
    + intros j. rewrite draw_advance. apply Hsel.
    + lia.
    + intros j Hj. rewrite chosen_advance, promise_advance, retarget_retarget.
      apply Hfail. lia.
    + rewrite chosen_advance, promise_advance, retarget_retarget. exact Hgood.
Qed.

(** Every pass so far failed: the loop is still running. *)
Lemma tryProvider_pending (request : Request) (fuel : nat) :
  ∀ (url : URL) (w : World),
    (∀ j, is_Some (select (draw w j))) →
    (∀ j, (j < fuel)%nat →
          ∃ e, verdict (retarget (chosen w j) url) (promise w j) = inr e) →
    tryProvider fuel url (Some request) w = (Pending, after url request w fuel).
Proof.
  induction fuel as [|fuel IH]; intros url w Hsel Hfail.
  - unfold after. cbn [seq flat_map]. by rewrite advance_zero.
  - rewrite tryProvider_unfold. destruct (Hsel 0%nat) as [p Hp]. rewrite Hp.
    cbn zeta. rewrite <- (chosen_select _ _ _ Hp).
    destruct (Hfail 0%nat ltac:(lia)) as [e He]. rewrite He.
    assert (Heffs : [Console_log ["Attempting provider: "; hostname (chosen w 0)];
                     Fetch_call (URL_toString (retarget (chosen w 0) url)) request;
                     Console_error e]
                    = pass_effects url request w 0)
      by (unfold pass_effects; by rewrite He).
    rewrite Heffs, <- (after_advance (chosen w 0)).
    apply IH.
    + intros j. rewrite draw_advance. apply Hsel.
    + intros j Hj. rewrite chosen_advance, promise_advance, retarget_retarget.
      apply Hfail. lia.
Qed.

(** Among the first [fuel] passes either one answers, or all fail. *)
Lemma first_answer (url : URL) (w : World) (fuel : nat) :
  (∃ n r, (n < fuel)%nat
          ∧ (∀ j, (j < n)%nat →
                  ∃ e, verdict (retarget (chosen w j) url) (promise w j) = inr e)
          ∧ verdict (retarget (chosen w n) url) (promise w n) = inl r)
  ∨ (∀ j, (j < fuel)%nat →
          ∃ e, verdict (retarget (chosen w j) url) (promise w j) = inr e).
Proof.
  induction fuel as [|fuel [(n & r & Hn & Hfail & Hgood) | Hall]].
  - right. intros j Hj. lia.
  - left. exists n, r. split; [lia | by split].
  - destruct (verdict (retarget (chosen w fuel) url) (promise w fuel)) as [r|e] eqn:Hv.
    + left. exists fuel, r. split; [lia | by split].
    + right. intros j Hj. destruct (decide (j = fuel)) as [->|Hne]; [eauto|].
      apply Hall. lia.
Qed.

(** The loop returns only what the first answering pass got. *)
Lemma tryProvider_returns (request : Request) (fuel : nat) (url : URL)
    (w w' : World) (r : Response) :
  (∀ j, is_Some (select (draw w j))) →
  tryProvider fuel url (Some request) w = (Returns r, w') →
  ∃ n, (n < fuel)%nat
       ∧ (∀ j, (j < n)%nat →
               ∃ e, failed (retarget (chosen w j) url) (promise w j) e)
       ∧ succeeded (promise w n) r
       ∧ w' = after url request w (S n).
Proof.
  intros Hsel Hrun.
  destruct (first_answer url w fuel) as [(n & r' & Hn & Hfail & Hgood) | Hall].
  - rewrite (tryProvider_answers request n fuel url w r' Hsel Hn Hfail Hgood) in Hrun.
    injection Hrun as <- <-. exists n. split; [exact Hn|].
    split; [|split; [by apply (verdict_inl (retarget (chosen w n) url)) | reflexivity]].
    intros j Hj. destruct (Hfail j Hj) as [e He]. exists e. by apply verdict_inr.
  - rewrite (tryProvider_pending request fuel url w Hsel Hall) in Hrun. discriminate.
Qed.

End Failover.

(** ** The choice of a provider *)

Section Choice.

Context {rt : Runtime} {cfg : Config}.

Lemma Qfloor_unique (x : Q) (i : Z) :
  (inject_Z i <= x)%Q → (x < inject_Z (i + 1))%Q → Qfloor x = i.
Proof.
  intros Hlo Hhi.
  assert (H1 : (i <= Qfloor x)%Z).
  { rewrite <- (Qfloor_Z i). by apply Qfloor_resp_le. }
  assert (H2 : (Qfloor x < i + 1)%Z).
  { rewrite Zlt_Qlt. eapply Qle_lt_trans; [apply Qfloor_le | exact Hhi]. }
  lia.
Qed.

Lemma Qfloor_bounds (x : Q) (i : Z) :
  Qfloor x = i ↔ (inject_Z i <= x)%Q ∧ (x < inject_Z (i + 1))%Q.
Proof.
  split.
  - intros <-. split; [apply Qfloor_le | apply Qlt_floor].
  - intros [Hlo Hhi]. by apply Qfloor_unique.
Qed.

(** *** The product as a double *)

Section DoubleFacts.

Local Open Scope Q_scope.
Import Double.

Lemma pow2_pos (e : Z) : 0 < pow2 e.
Proof. apply Qpower_0_lt. reflexivity. Qed.

Lemma pow2_add (a b : Z) : pow2 (a + b) == pow2 a * pow2 b.
Proof. apply Qpower_plus. discriminate. Qed.

Lemma pow2_le (a b : Z) : (a <= b)%Z → pow2 a <= pow2 b.
Proof. intros H. apply Qpower_le_compat_l; [exact H | discriminate]. Qed.

Lemma pow2_inject (e : Z) : (0 <= e)%Z → inject_Z (2 ^ e) == pow2 e.
Proof. intros H. unfold pow2. by rewrite Zpower_Qpower. Qed.

Lemma pow2_succ (e : Z) : pow2 (e + 1) == 2 * pow2 e.
Proof. rewrite pow2_add. change (pow2 1) with 2. ring. Qed.

Lemma Qmake_inject (a : Z) (b : positive) : inject_Z a == (a # b) * inject_Z (Zpos b).
Proof. unfold Qeq, Qmult, inject_Z. cbn. lia. Qed.

Lemma binade_spec (x : Q) :
  0 < x → pow2 (binade x) <= x ∧ x < pow2 (binade x + 1).
Proof.
  destruct x as [a b]. intros Hx.
  assert (Ha : (0 < a)%Z) by (unfold Qlt in Hx; cbn in Hx; lia).
  pose proof (Z.log2_spec a Ha) as [Hal Hau].
  pose proof (Z.log2_spec (Zpos b) ltac:(lia)) as [Hbl Hbu].
  pose proof (Z.log2_nonneg a) as Hla.
  pose proof (Z.log2_nonneg (Zpos b)) as Hlb.
  rewrite Zle_Qle, pow2_inject in Hal, Hbl by assumption.
  rewrite Zlt_Qlt, <- Z.add_1_r, pow2_inject in Hau, Hbu by lia.
  rewrite (Qmake_inject a b) in Hal, Hau.
  pose proof (pow2_pos (Z.log2 (Zpos b))) as Hpb.
  unfold binade. cbn [Qnum Qden].
  set (la := Z.log2 a) in *. set (lb := Z.log2 (Zpos b)) in *.
  set (B := inject_Z (Zpos b)) in *. set (x := a # b) in *.
  assert (E1 : pow2 (la + 1) == pow2 (la - lb + 1) * pow2 lb).
  { rewrite <- pow2_add. by replace (la - lb + 1 + lb)%Z with (la + 1)%Z by lia. }
  assert (E2 : pow2 la == pow2 (la - lb - 1) * pow2 (lb + 1)).
  { rewrite <- pow2_add. by replace (la - lb - 1 + (lb + 1))%Z with la by lia. }
  pose proof (pow2_pos (la - lb + 1)) as Hp1.
  pose proof (pow2_pos (la - lb - 1)) as Hp2.
  destruct (Qle_bool (pow2 (la - lb)) x) eqn:Ht.
  - apply Qle_bool_iff in Ht. split; [exact Ht|].
    apply Qnot_le_lt. intros Hc.
    assert (pow2 (la - lb + 1) * pow2 lb <= x * B) by nra.
    lra.
  - assert (Hlt : x < pow2 (la - lb)).
    { apply Qnot_le_lt. intros Hc. apply Qle_bool_iff in Hc. congruence. }
    split.
    + apply Qnot_lt_le. intros Hc.
      assert (x * B < pow2 (la - lb - 1) * pow2 (lb + 1)) by nra.
      lra.
    + by replace (la - lb - 1 + 1)%Z with (la - lb)%Z by lia.
Qed.

Lemma nearest_even_error (y : Q) :
  - (1 # 2) <= inject_Z (nearest_even y) - y ∧ inject_Z (nearest_even y) - y <= 1 # 2.
Proof.
  unfold nearest_even.
  pose proof (Qfloor_le y) as Hlo. pose proof (Qlt_floor y) as Hhi.
  rewrite inject_Z_plus in Hhi. change (inject_Z 1) with 1 in Hhi.
  destruct (Qcompare_spec (y - inject_Z (Qfloor y)) (1 # 2)) as [E|L|G].
  - destruct (Z.even (Qfloor y)).
    + lra.
    + rewrite inject_Z_plus. change (inject_Z 1) with 1. lra.
  - lra.
  - rewrite inject_Z_plus. change (inject_Z 1) with 1. lra.
Qed.

Lemma nearest_even_nonneg (y : Q) : 0 <= y → (0 <= nearest_even y)%Z.
Proof.
  intros Hy. assert (H : (0 <= Qfloor y)%Z).
  { change 0%Z with (Qfloor 0). by apply Qfloor_resp_le. }
  unfold nearest_even.
  destruct (y - inject_Z (Qfloor y) ?= 1 # 2); [destruct (Z.even _)| |]; lia.
Qed.

Lemma round_nonneg (x : Q) : 0 <= round x.
Proof.
  unfold round. destruct (Qle_bool x 0) eqn:Ht; [lra|].
  assert (Hx : 0 < x).
  { apply Qnot_le_lt. intros Hc. apply Qle_bool_iff in Hc. congruence. }
  cbn zeta. set (ulp := pow2 _). pose proof (pow2_pos (Z.max (binade x) (-1022) - 52)) as Hu.
  fold ulp in Hu.
  apply Qmult_le_0_compat; [|lra].
  change 0 with (inject_Z 0). rewrite <- Zle_Qle. apply nearest_even_nonneg.
  apply Qle_shift_div_l; [exact Hu | lra].
Qed.

(** The rounding error is at most half the spacing. *)
Lemma round_error (x : Q) :
  0 < x →
  let h := pow2 (Z.max (binade x) (-1022) - 53) in
  x - h <= round x ∧ round x <= x + h.
Proof.
  intros Hx h. unfold round.
  destruct (Qle_bool x 0) eqn:Ht; [apply Qle_bool_iff in Ht; lra|].
  cbn zeta. set (e := Z.max (binade x) (-1022)) in *.
  pose proof (pow2_pos (e - 52)) as Hu.
  assert (Eh : pow2 (e - 52) == 2 * h).
  { subst h. rewrite <- pow2_succ. by replace (e - 53 + 1)%Z with (e - 52)%Z by lia. }
  destruct (nearest_even_error (x / pow2 (e - 52))) as [Hlo Hhi].
  set (m := inject_Z (nearest_even (x / pow2 (e - 52)))) in *.
  assert (Ex : x == x / pow2 (e - 52) * pow2 (e - 52)) by (field; lra).
  set (y := x / pow2 (e - 52)) in *. set (ulp := pow2 (e - 52)) in *.
  split; nra.
Qed.

Lemma eps_eq : eps == 1 # 9007199254740992.
Proof. reflexivity. Qed.

(** In the normal range the error is relative; below it the number is
    tiny and so is the error. *)
Lemma round_bounds (x : Q) :
  0 <= x →
  (x * (1 - eps) <= round x ∧ round x <= x * (1 + eps))
  ∨ (x < pow2 (-1022) ∧ round x <= x + pow2 (-1075)).
Proof.
  intros Hx. destruct (Qlt_le_dec 0 x) as [Hpos|Hz].
  2: { left. assert (E : x == 0) by lra.
       assert (Er : round x = 0).
       { unfold round. destruct (Qle_bool x 0) eqn:Ht; [reflexivity|].
         exfalso. assert (Qle_bool x 0 = true) by (apply Qle_bool_iff; lra). congruence. }
       rewrite Er, E. lra. }
  destruct (binade_spec x Hpos) as [Hb1 Hb2].
  pose proof (round_error x Hpos) as Herr. cbn zeta in Herr.
  destruct (Z.le_gt_cases (-1022) (binade x)) as [Hn|Hs].
  - left. rewrite Z.max_l in Herr by lia.
    assert (E : pow2 (binade x - 53) == pow2 (binade x) * eps).
    { unfold eps. rewrite <- pow2_add. by replace (binade x + -53)%Z with (binade x - 53)%Z by lia. }
    rewrite E in Herr. pose proof eps_eq. nra.
  - right. rewrite Z.max_r in Herr by lia. split; [|exact (proj2 Herr)].
    eapply Qlt_le_trans; [exact Hb2|]. apply pow2_le. lia.
Qed.

Lemma pow2_small : pow2 (-1022) + pow2 (-1075) < 1.
Proof. reflexivity. Qed.

Lemma round_lt (x : Q) (k : Q) :
  0 <= x → 1 <= k → x * (1 + eps) < k → round x < k.
Proof.
  intros Hx Hk H. destruct (round_bounds x Hx) as [[_ Hr]|[Hs Hr]]; [lra|].
  pose proof pow2_small. lra.
Qed.

Lemma round_ge (x : Q) (i : Z) :
  0 <= x → inject_Z i <= x * (1 - eps) → inject_Z i <= round x.
Proof.
  intros Hx H. destruct (round_bounds x Hx) as [[Hr _]|[Hs Hr]]; [lra|].
  pose proof (round_nonneg x) as Hn.
  destruct (Z.le_gt_cases i 0) as [Hi|Hi].
  - rewrite Zle_Qle in Hi. change (inject_Z 0) with 0 in Hi. lra.
  - assert (Hi' : (1 <= i)%Z) by lia. rewrite Zle_Qle in Hi'. change (inject_Z 1) with 1 in Hi'.
    pose proof pow2_small. pose proof (pow2_pos (-1075)). pose proof eps_eq. nra.
Qed.

Lemma round_lt_inv (x : Q) (k : Q) :
  0 <= x → 1 <= k → round x < k → x * (1 - eps) < k.
Proof.
  intros Hx Hk H. destruct (round_bounds x Hx) as [[Hr _]|[Hs Hr]]; [lra|].
  pose proof pow2_small. pose proof (pow2_pos (-1075)). pose proof eps_eq. nra.
Qed.

Lemma round_ge_inv (x : Q) (i : Z) :
  0 <= x → inject_Z i <= round x → inject_Z i <= x * (1 + eps).
Proof.
  intros Hx H. destruct (round_bounds x Hx) as [[_ Hr]|[Hs Hr]]; [lra|].
  destruct (Z.le_gt_cases i 0) as [Hi|Hi].
  - rewrite Zle_Qle in Hi. change (inject_Z 0) with 0 in Hi. pose proof eps_eq. nra.
  - assert (Hi' : (1 <= i)%Z) by lia. rewrite Zle_Qle in Hi'. change (inject_Z 1) with 1 in Hi'.
    pose proof pow2_small. lra.
Qed.

(** A double below 1 is at most [1 - 2^-53]. *)
Lemma double_below_one (u : Q) : is_double u → u < 1 → u <= 1 - eps.
Proof.
  unfold is_double. intros Hd Hu. pose proof eps_eq as He.
  destruct (Qlt_le_dec 0 u) as [Hpos|Hz]; [|lra].
  destruct (binade_spec u Hpos) as [Hb1 Hb2].
  assert (Hb : (binade u <= -1)%Z).
  { destruct (Z.le_gt_cases (binade u) (-1)) as [H|H]; [exact H|].
    assert (pow2 0 <= pow2 (binade u)) by (apply pow2_le; lia).
    change (pow2 0) with 1 in *. lra. }
  destruct (Z.le_gt_cases (binade u) (-2)) as [H2|H2].
  - assert (pow2 (binade u + 1) <= pow2 (-1)) by (apply pow2_le; lia).
    change (pow2 (-1)) with (1 # 2) in *. lra.
  - assert (Eb : binade u = (-1)%Z) by lia.
    unfold round in Hd.
    destruct (Qle_bool u 0) eqn:Ht; [apply Qle_bool_iff in Ht; lra|].
    cbn zeta in Hd. rewrite Eb in Hd. change (Z.max (-1) (-1022) - 52)%Z with (-53)%Z in Hd.
    fold eps in Hd. set (m := nearest_even (u / eps)) in *.
    assert (Hm : (m < 2 ^ 53)%Z).
    { rewrite Zlt_Qlt. change (inject_Z (2 ^ 53)) with (9007199254740992 # 1). nra. }
    assert (Hm' : (m <= 2 ^ 53 - 1)%Z) by lia.
    rewrite Zle_Qle in Hm'. change (inject_Z (2 ^ 53 - 1)) with (9007199254740991 # 1) in Hm'.
    nra.
Qed.

End DoubleFacts.

(** The product of the draw [6004799503160661 / 2^53] and 3 is
    [2 - 2^-53], which is no double: it is rounded to 2. *)
Example pick_rounds_up : pick (6004799503160661 # 9007199254740992) 3 = 2%Z.
Proof. vm_compute. reflexivity. Qed.

(** A double of [[0, 1)] selects an index of the pool. *)
Lemma pick_range (u : Q) (n : nat) :
  (0 <= u)%Q → (u <= 1 - Double.eps)%Q → (0 < n)%nat →
  (0 <= pick u n < Z.of_nat n)%Z.
Proof.
  intros H0 H1 Hn. unfold pick.
  assert (Hpos : (1 <= inject_Z (Z.of_nat n))%Q).
  { change 1%Q with (inject_Z 1). rewrite <- Zle_Qle. lia. }
  assert (Hx : (0 <= u * inject_Z (Z.of_nat n))%Q) by nra.
  split.
  - change 0%Z with (Qfloor 0). apply Qfloor_resp_le. apply round_nonneg.
  - rewrite Zlt_Qlt. eapply Qle_lt_trans; [apply Qfloor_le|].
    apply round_lt; [exact Hx | exact Hpos |].
    pose proof eps_eq as He. nra.
Qed.

(** Index [i] is selected by the draws [u] with [i <= u * n < i + 1], up
    to the rounding of the product, a relative [2^-53]: every provider
    gets an interval of the same length but for that, so a uniform draw
    makes a choice as good as uniform. *)
Lemma pick_interval (u : Q) (n : nat) (i : Z) :
  (0 <= u)%Q → (0 <= i)%Z →
  let x := (u * inject_Z (Z.of_nat n))%Q in
  ((inject_Z i <= x * (1 - Double.eps))%Q
   ∧ (x * (1 + Double.eps) < inject_Z (i + 1))%Q → pick u n = i)
  ∧ (pick u n = i →
     (inject_Z i <= x * (1 + Double.eps))%Q
     ∧ (x * (1 - Double.eps) < inject_Z (i + 1))%Q).
Proof.
  intros Hu Hi x.
  assert (Hn : (0 <= inject_Z (Z.of_nat n))%Q).
  { change 0%Q with (inject_Z 0). rewrite <- Zle_Qle. lia. }
  assert (Hx : (0 <= x)%Q) by (subst x; nra).
  assert (Hk : (1 <= inject_Z (i + 1))%Q).
  { change 1%Q with (inject_Z 1). rewrite <- Zle_Qle. lia. }
  unfold pick. fold x. split.
  - intros [Hlo Hhi]. apply Qfloor_unique.
    + by apply round_ge.
    + by apply round_lt.
  - intros Hp. apply Qfloor_bounds in Hp as [Hlo Hhi]. split.
    + by apply round_ge_inv.
    + by apply round_lt_inv.
Qed.

Lemma select_valid (u : Q) :
  is_double u → (0 <= u)%Q → (u < 1)%Q → PROVIDERS ≠ [] →
  is_Some (select u)
  ∧ select u = PROVIDERS !! Z.to_nat (pick u (length PROVIDERS)).
Proof.
  intros Hd H0 H1 Hne.
  assert (Hn : (0 < length PROVIDERS)%nat) by (destruct PROVIDERS; [done | cbn; lia]).
  destruct (pick_range u (length PROVIDERS) H0 (double_below_one u Hd H1) Hn)
    as [Hlo Hhi].
  unfold select. destruct (Z.ltb_spec (pick u (length PROVIDERS)) 0) as [Hneg|_]; [lia|].
  split; [|reflexivity]. apply lookup_lt_is_Some. lia.
Qed.

End Choice.

Section FailoverContract.

Context {rt : Runtime} {cfg : Config}.

Lemma draws_select (w : World) :
  PROVIDERS ≠ [] →
  (∀ i, is_double (randoms w i) ∧ (0 <= randoms w i)%Q ∧ (randoms w i < 1)%Q) →
  ∀ j, is_Some (select (draw w j)).
Proof.
  intros Hne Hu j. destruct (Hu (j + drawn w)%nat) as (Hd & H0 & H1).
  by apply select_valid.
Qed.

(** C1.  A pass of [tryProvider] draws its provider afresh, by
    [PROVIDERS[floor(u * n)]], the product being the double nearest to
    it (so index [i] is selected by the draws with [i <= u * n < i + 1]
    up to a relative [2^-53] at either end, one [n]-th of the unit
    interval each), logs it, and fetches with the original request
    against the host and path of that provider, the fetch racing a timer of
    [PROVIDER_TIMEOUT] ms.  An ok answer that wins the race is returned.
    A timeout, a rejection or a non-ok answer is logged and the loop
    runs again on the same request.  What the loop returns is the ok
    answer, arrived within the timeout, of the first pass that did not
    fail, and it returns as soon as there is such a pass; whatever it
    was given as request, it returns nothing but such an answer. *)
Theorem tryProvider_failover (fuel : nat) (url : URL) (request : Request)
    (w : World) :
  PROVIDERS ≠ [] →
  (∀ i, is_double (randoms w i) ∧ (0 <= randoms w i)%Q ∧ (randoms w i < 1)%Q) →
  let provider := chosen w 0 in
  let target := retarget provider url in
  let log := Console_log ["Attempting provider: "; hostname provider] in
  let call := Fetch_call (URL_toString target) request in
  let n := length PROVIDERS in
  let x := (draw w 0 * inject_Z (Z.of_nat n))%Q in
  (PROVIDERS !! Z.to_nat (pick (draw w 0) n) = Some provider
   ∧ pick (draw w 0) n = Qfloor (Double.round x)
   ∧ (∀ i, (0 <= i)%Z →
        ((inject_Z i <= x * (1 - Double.eps))%Q
         ∧ (x * (1 + Double.eps) < inject_Z (i + 1))%Q → pick (draw w 0) n = i)
        ∧ (pick (draw w 0) n = i →
           (inject_Z i <= x * (1 + Double.eps))%Q
           ∧ (x * (1 - Double.eps) < inject_Z (i + 1))%Q))
   ∧ target = mkURL (protocol url) (hostname provider) (port url)
                    (pathname provider) (search url) (fragment url))
  ∧ (∀ r, succeeded (promise w 0) r →
          tryProvider (S fuel) url (Some request) w
          = (Returns r, advance w [log; call] 1 1))
  ∧ (∀ e, failed target (promise w 0) e →
          tryProvider (S fuel) url (Some request) w
          = tryProvider fuel target (Some request)
              (advance w [log; call; Console_error e] 1 1))
  ∧ (∀ r w', tryProvider fuel url (Some request) w = (Returns r, w') →
       ∃ k s, (k < fuel)%nat
              ∧ promise w k = Some s ∧ result s = Responds r
              ∧ latency s <= PROVIDER_TIMEOUT ∧ ok r = true
              ∧ (∀ j, (j < k)%nat →
                      ∃ e, failed (retarget (chosen w j) url) (promise w j) e)
              ∧ w' = after url request w (S k))
  ∧ (∀ k r fuel',
       (∀ j, (j < k)%nat →
             ∃ e, failed (retarget (chosen w j) url) (promise w j) e) →
       succeeded (promise w k) r →
       (k < fuel')%nat →
       tryProvider fuel' url (Some request) w
       = (Returns r, after url request w (S k)))
  ∧ (∀ given r w', tryProvider fuel url given w = (Returns r, w') →
       ∃ k s, network w k = Some s ∧ result s = Responds r
              ∧ latency s <= PROVIDER_TIMEOUT ∧ ok r = true).
Proof.
  intros Hne Hu provider target log call n x.
  pose proof (draws_select w Hne Hu) as Hsel.
  assert (Hp : select (draw w 0) = Some provider).
  { destruct (Hsel 0%nat) as [p Hp]. subst provider.
    by rewrite (chosen_select _ _ _ Hp). }
  destruct (Hu (0 + drawn w)%nat) as (Hd & H0 & H1).
  subst provider target log call n x.
  split; [split; [|split; [|split]]|split; [|split; [|split; [|split]]]].
  - destruct (select_valid (draw w 0) Hd H0 H1 Hne) as [_ E].
    rewrite <- E. exact Hp.
  - reflexivity.
  - intros i Hi. by apply pick_interval.
  - reflexivity.
  - intros r Hr. rewrite tryProvider_unfold, Hp. cbn zeta.
    apply (verdict_inl (retarget (chosen w 0) url)) in Hr. by rewrite Hr.
  - intros e He. rewrite tryProvider_unfold, Hp. cbn zeta.
    apply verdict_inr in He. by rewrite He.
  - intros r w' Hrun.
    destruct (tryProvider_returns request fuel url w w' r Hsel Hrun)
      as (k & Hk & Hfail & (s & Hs & Hf & Hr & Hok) & ->).
    exists k, s. repeat split; try assumption.
    by apply fetch_first_in_time.
  - intros k r fuel' Hfail Hgood Hk.
    apply tryProvider_answers; try assumption.
    + intros j Hj. destruct (Hfail j Hj) as [e He]. exists e. by apply verdict_inr.
    + by apply verdict_inl.
  - intros given r w' Hrun.
    destruct (tryProvider_frame fuel _ _ _ _ _ Hrun) as (_ & _ & _ & _ & _ & Hret & _).
    destruct (Hret r eq_refl) as (k & s & _ & Hs & Hf & Hr & Hok).
    exists k, s. repeat split; try assumption. by apply fetch_first_in_time.
Qed.

End FailoverContract.


(** ** The handlers, step by step *)

Section Steps.

Context {rt : Runtime} {cfg : Config}.

Lemma bind_unanswered {A B} (m : M A) (k : A → M B) (w : World) :
  answered (fst (m w)) = false →
  answered (fst (bind m k w)) = false ∧ snd (bind m k w) = snd (m w).
Proof. unfold bind. by destruct (m w) as [[a|e|] w']. Qed.

Lemma Headers_of_edge :
  Headers_of [("Cache-Control", "public, max-age=" +:+ pretty EDGE_CACHE_TTL)]
  = edge_headers.
Proof. reflexivity. Qed.

(** [getOriginResponse] in terms of what the loop does. *)
Lemma getOriginResponse_eq (fuel : nat) (url : URL) (event : EventArg)
    (cacheKey : option Request) (w : World) :
  getOriginResponse fuel url event cacheKey w
  = match tryProvider fuel url (event_request event) w with
    | (Returns r, w1) =>
        match cacheKey with
        | None => (Returns r, w1)
        | Some key =>
            match event with
            | IsEvent _ =>
                (Returns (stored_as r),
                 put_world w1 key (stored_as r)
                           [Cache_put key (stored_as r); Wait_until])
            | IsRequest _ =>
                (Throws (TypeError "event.waitUntil is not a function"),
                 put_world w1 key (stored_as r) [Cache_put key (stored_as r)])
            end
        end
    | (Throws e, w1) => (Throws e, w1)
    | (Pending, w1) => (Pending, w1)
    end.
Proof.
  unfold getOriginResponse, bind at 1.
  destruct (tryProvider fuel url (event_request event) w) as [[r|e|] w1];
    [|reflexivity|reflexivity].
  destruct cacheKey as [key|]; [|reflexivity].
  rewrite Headers_of_edge. fold (stored_as r).
  unfold bind at 1, caches_put, bind at 1, emit.
  cbn [cache trace randoms drawn network fetched].
  destruct event as [ev|rq]; unfold waitUntil, bind, emit, throw, ret, put_world;
    cbn [cache trace randoms drawn network fetched].
  - by rewrite <- app_assoc.
  - reflexivity.
Qed.

(** [formatResponse] touches nothing outside. *)
Lemma formatResponse_state (response : Response) (body : option Obj) (w : World) :
  snd (formatResponse response body w) = w.
Proof.
  unfold formatResponse, bind, json, ret, throw.
  destruct body as [extra|]; [|reflexivity].
  by destruct (JSON_parse (default "" (res_body response))).
Qed.

(** The four headers it sets, whatever the response had. *)
Lemma formatResponse_headers (response : Response) (body : option Obj)
    (w w' : World) (r : Response) :
  formatResponse response body w = (Returns r, w') → client_headers r.
Proof.
  unfold client_headers, formatResponse, bind, json, ret, throw.
  destruct body as [extra|].
  - destruct (JSON_parse (default "" (res_body response))); [|discriminate].
    intros [= <- _]. cbn [res_headers]. unfold Headers_get, Headers_set.
    repeat split; by simplify_map_eq.
  - intros [= <- _]. cbn [res_headers]. unfold Headers_get, Headers_set.
    repeat split; by simplify_map_eq.
Qed.

(** Without extra fields the body and the status go through. *)
Lemma formatResponse_plain (response : Response) (w : World) :
  ∃ r, formatResponse response None w = (Returns r, w)
       ∧ res_body r = res_body response ∧ status r = status response.
Proof. eexists. unfold formatResponse, bind, ret. cbn. by repeat split. Qed.

(** With extra fields the body is parsed, merged and written again. *)
Lemma formatResponse_extra (response : Response) (extra : Obj) (w w' : World)
    (r : Response) :
  formatResponse response (Some extra) w = (Returns r, w') →
  ∃ originalBody,
    JSON_parse (default "" (res_body response)) = Some originalBody
    ∧ res_body r = Some (JSON_stringify_object (spread2 originalBody extra))
    ∧ status r = status response.
Proof.
  unfold formatResponse, bind, json, ret, throw.
  destruct (JSON_parse (default "" (res_body response))) as [j|]; [|discriminate].
  intros [= <- _]. by exists j.
Qed.

Lemma formatResponse_parsed (response : Response) (extra : Obj) (w : World)
    (originalBody : JSON) :
  JSON_parse (default "" (res_body response)) = Some originalBody →
  ∃ r, formatResponse response (Some extra) w = (Returns r, w)
       ∧ res_body r = Some (JSON_stringify_object (spread2 originalBody extra))
       ∧ status r = status response.
Proof.
  intros Hj. unfold formatResponse, bind, json, ret, throw. rewrite Hj.
  eexists. by repeat split.
Qed.

Lemma formatResponse_unparsed (response : Response) (extra : Obj) (w : World) :
  JSON_parse (default "" (res_body response)) = None →
  formatResponse response (Some extra) w
  = (Throws (SyntaxError "Unexpected token in JSON"), w).
Proof.
  intros Hj. unfold formatResponse, bind, json, ret, throw. by rewrite Hj.
Qed.

(** [handlePost] once the body is parsed. *)
Lemma handlePost_unfold (fuel : nat) (event : FetchEvent) (w : World) (body : JSON) :
  body_of event = Some body →
  body ≠ JNull →
  handlePost fuel event w
  = let request := ev_request event in
    let id := get_prop "id" body in
    if bypassCache (get_prop "method" body) then
      bind (getOriginResponse fuel (req_url request) (IsEvent event) None)
           (fun response => formatResponse response (Some [("id", id)])) w
    else
      let cacheKey := cacheKey_of request (get_prop "params" body) in
      bind (caches_match cacheKey)
           (fun response =>
              bind (match response with
                    | Some response => ret response
                    | None => getOriginResponse fuel (req_url cacheKey)
                                (IsEvent event) (Some cacheKey)
                    end)
                   (fun response => formatResponse response (Some [("id", id)]))) w.
Proof.
  unfold body_of. intros Hbody Hnull. unfold handlePost.
  unfold bind at 1, Request_clone, ret at 1.
  unfold bind at 1, json. rewrite Hbody. unfold ret at 1.
  destruct body; try done; cbn zeta; by destruct (bypassCache _).
Qed.

Lemma handlePost_unparsed (fuel : nat) (event : FetchEvent) (w : World) :
  body_of event = None →
  handlePost fuel event w = (Throws (SyntaxError "Unexpected token in JSON"), w).
Proof.
  unfold body_of. intros Hbody. unfold handlePost.
  unfold bind at 1, Request_clone, ret at 1.
  unfold bind at 1, json. by rewrite Hbody.
Qed.

Lemma handlePost_null (fuel : nat) (event : FetchEvent) (w : World) :
  body_of event = Some JNull →
  handlePost fuel event w
  = (Throws (TypeError "Cannot destructure 'body' as it is null"), w).
Proof.
  unfold body_of. intros Hbody. unfold handlePost.
  unfold bind at 1, Request_clone, ret at 1.
  unfold bind at 1, json. by rewrite Hbody.
Qed.

Lemma caches_match_eq (key : Request) (w : World) :
  caches_match key w
  = (Returns (cache_match (cache w) key), advance w [Cache_match key] 0 0).
Proof. reflexivity. Qed.

End Steps.

(** ** Objects: setting a property and spreading *)

Lemma has_key_get (k : string) (o : Obj) :
  has_key k o = true ↔ is_Some (obj_get k o).
Proof.
  unfold has_key, obj_get.
  induction o as [|p o IH]; cbn [existsb List.find].
  - split; [discriminate | by intros [? ?]].
  - destruct (String.eqb (fst p) k); cbn [orb]; [|exact IH].
    split; [by eexists | reflexivity].
Qed.

Lemma obj_replace_get_eq (k : string) (v : jsval) (o : Obj) :
  has_key k o = true → obj_get k (obj_replace k v o) = Some v.
Proof.
  unfold has_key, obj_get, obj_replace.
  induction o as [|p o IH]; cbn [existsb map List.find]; [discriminate|].
  destruct (String.eqb_spec (fst p) k) as [Heq|Hne]; cbn [orb fst].
  - intros _. by rewrite String.eqb_refl.
  - apply String.eqb_neq in Hne. rewrite Hne. exact IH.
Qed.

Lemma obj_replace_get_ne (k k' : string) (v : jsval) (o : Obj) :
  k ≠ k' → obj_get k' (obj_replace k v o) = obj_get k' o.
Proof.
  intros Hne. unfold obj_get, obj_replace.
  induction o as [|p o IH]; cbn [map List.find]; [reflexivity|].
  destruct (String.eqb_spec (fst p) k) as [Heq|Hne']; cbn [fst].
  - rewrite Heq. apply String.eqb_neq in Hne. rewrite Hne. exact IH.
  - destruct (String.eqb (fst p) k'); [reflexivity | exact IH].
Qed.

Lemma obj_insert_index_get_eq (i : N) (k : string) (v : jsval) (o : Obj) :
  has_key k o = false → obj_get k (obj_insert_index i k v o) = Some v.
Proof.
  unfold has_key, obj_get.
  induction o as [|p o IH]; cbn [existsb obj_insert_index List.find].
  - intros _. cbn. by rewrite String.eqb_refl.
  - intros H. apply orb_false_iff in H as [Hp Ho].
    destruct (array_index (fst p)) as [i'|]; [destruct (i' <? i)|];
      cbn [List.find fst]; rewrite ?Hp, ?String.eqb_refl; auto.
Qed.

Lemma obj_insert_index_get_ne (i : N) (k k' : string) (v : jsval) (o : Obj) :
  k ≠ k' → obj_get k' (obj_insert_index i k v o) = obj_get k' o.
Proof.
  intros Hne. apply String.eqb_neq in Hne. unfold obj_get.
  induction o as [|p o IH]; cbn [obj_insert_index List.find].
  - cbn. by rewrite Hne.
  - destruct (array_index (fst p)) as [i'|]; [destruct (i' <? i)|];
      cbn [List.find fst]; rewrite ?Hne; try reflexivity.
    destruct (String.eqb (fst p) k'); [reflexivity | exact IH].
Qed.

Lemma obj_append_get_eq (k : string) (v : jsval) (o : Obj) :
  has_key k o = false → obj_get k (o ++ [(k, v)]) = Some v.
Proof.
  unfold has_key, obj_get.
  induction o as [|p o IH]; cbn [existsb app List.find].
  - intros _. cbn. by rewrite String.eqb_refl.
  - intros H. apply orb_false_iff in H as [Hp Ho]. rewrite Hp. auto.
Qed.

Lemma obj_append_get_ne (k k' : string) (v : jsval) (o : Obj) :
  k ≠ k' → obj_get k' (o ++ [(k, v)]) = obj_get k' o.
Proof.
  intros Hne. apply String.eqb_neq in Hne. unfold obj_get.
  induction o as [|p o IH]; cbn [app List.find].
  - cbn. by rewrite Hne.
  - destruct (String.eqb (fst p) k'); [reflexivity | exact IH].
Qed.

(** After [o[k] = v], reading [k] gives [v] ... *)
Lemma obj_set_get_eq (k : string) (v : jsval) (o : Obj) :
  obj_get k (obj_set k v o) = Some v.
Proof.
  unfold obj_set. destruct (has_key k o) eqn:Hk.
  - by apply obj_replace_get_eq.
  - destruct (array_index k).
    + by apply obj_insert_index_get_eq.
    + by apply obj_append_get_eq.
Qed.

(** ... and reading any other key gives what it gave. *)
Lemma obj_set_get_ne (k k' : string) (v : jsval) (o : Obj) :
  k ≠ k' → obj_get k' (obj_set k v o) = obj_get k' o.
Proof.
  intros Hne. unfold obj_set. destruct (has_key k o).
  - by apply obj_replace_get_ne.
  - destruct (array_index k).
    + by apply obj_insert_index_get_ne.
    + by apply obj_append_get_ne.
Qed.

(** No property named [k] is left with another value. *)
Lemma obj_set_values (k : string) (v v' : jsval) (o : Obj) :
  In (k, v') (obj_set k v o) → v' = v.
Proof.
  unfold obj_set. destruct (has_key k o) eqn:Hk.
  - unfold obj_replace. intros Hin. apply in_map_iff in Hin as (p & Hp & _).
    destruct (String.eqb_spec (fst p) k) as [Heq|Hne].
    + by injection Hp as <-.
    + subst p. by cbn in Hne.
  - assert (Hnot : ∀ x, ¬ In (k, x) o).
    { intros x Hin. apply not_true_iff_false in Hk. apply Hk.
      unfold has_key. apply existsb_exists. exists (k, x).
      split; [exact Hin | apply String.eqb_refl]. }
    destruct (array_index k) as [i|].
    + clear Hk. induction o as [|p o IH]; cbn [obj_insert_index].
      * intros [Heq|[]]. congruence.
      * assert (Hnot' : ∀ x, ¬ In (k, x) o) by (intros x Hx; apply (Hnot x); by right).
        destruct (array_index (fst p)) as [i'|]; [destruct (i' <? i)|].
        -- intros [->|Hin]; [exfalso; apply (Hnot v'); by left | by apply IH].
        -- intros [Heq|Hin]; [congruence | exfalso; by apply (Hnot v')].
        -- intros [Heq|Hin]; [congruence | exfalso; by apply (Hnot v')].
    + intros Hin. apply in_app_iff in Hin as [Hin|[Heq|[]]];
        [exfalso; by apply (Hnot v') | congruence].
Qed.

Lemma defined_props_cons (k : string) (v : jsval) (o : Obj) :
  defined_props ((k, v) :: o)
  = match v with
    | Some j => (k, j) :: defined_props o
    | None => defined_props o
    end.
Proof. by destruct v. Qed.

Lemma get_prop_cons (k k1 : string) (j : JSON) (props : list (string * JSON)) :
  get_prop k (JObj ((k1, j) :: props))
  = if String.eqb k1 k then Some j else get_prop k (JObj props).
Proof. unfold get_prop. cbn. by destruct (String.eqb k1 k). Qed.

Lemma get_prop_defined_none (k : string) (o : Obj) :
  (∀ v', In (k, v') o → v' = None) →
  get_prop k (JObj (defined_props o)) = None.
Proof.
  induction o as [|[k1 v1] o IH]; intros Hall; [reflexivity|].
  assert (Hrest : ∀ v', In (k, v') o → v' = None)
    by (intros v' Hin; apply Hall; by right).
  rewrite defined_props_cons. destruct v1 as [j|]; [|by apply IH].
  rewrite get_prop_cons. destruct (String.eqb_spec k1 k) as [->|Hne]; [|by apply IH].
  by specialize (Hall (Some j) (or_introl eq_refl)).
Qed.

(** What the serialised object shows under [k] when every property named
    [k] holds [v]: [v] itself, nothing when [v] is [undefined]. *)
Lemma get_prop_defined (k : string) (v : jsval) (o : Obj) :
  (∀ v', In (k, v') o → v' = v) →
  has_key k o = true →
  get_prop k (JObj (defined_props o)) = v.
Proof.
  destruct v as [j|]; [|intros Hall _; by apply get_prop_defined_none].
  induction o as [|[k1 v1] o IH]; intros Hall Hk; [discriminate|].
  assert (Hrest : ∀ v', In (k, v') o → v' = Some j)
    by (intros v' Hin; apply Hall; by right).
  unfold has_key in Hk. cbn [existsb fst] in Hk. fold (has_key k o) in Hk.
  rewrite defined_props_cons.
  destruct (String.eqb_spec k1 k) as [->|Hne].
  - rewrite (Hall v1 (or_introl eq_refl)), get_prop_cons. by rewrite String.eqb_refl.
  - cbn [orb] in Hk. destruct v1 as [j1|]; [|by apply IH].
    rewrite get_prop_cons. apply String.eqb_neq in Hne. rewrite Hne. by apply IH.
Qed.

Lemma spread2_id (a : JSON) (id : jsval) :
  spread2 a [("id", id)] = obj_set "id" id (spread2 a []).
Proof. reflexivity. Qed.

(** The merge [{ ...a, id }]: the extra field wins, the rest is [a]'s. *)
Lemma spread2_id_wins (a : JSON) (id : jsval) :
  get_prop "id" (JObj (defined_props (spread2 a [("id", id)]))) = id
  ∧ (∀ v, In ("id", v) (defined_props (spread2 a [("id", id)])) → id = Some v)
  ∧ ∀ k, k ≠ "id" → obj_get k (spread2 a [("id", id)]) = obj_get k (spread2 a []).
Proof.
  rewrite spread2_id. split; [|split].
  - apply get_prop_defined.
    + intros v'. apply obj_set_values.
    + apply has_key_get. rewrite obj_set_get_eq. by eexists.
  - intros v Hin. unfold defined_props in Hin.
    apply list_elem_of_In, list_elem_of_omap in Hin as ([k v'] & Hin & Hv).
    destruct v' as [j|]; [|discriminate]. injection Hv as -> ->.
    apply list_elem_of_In in Hin. symmetry. by apply (obj_set_values "id" id (Some v) _ Hin).
  - intros k Hk. by apply obj_set_get_ne.
Qed.

(** *** Objects whose keys are distinct *)













(** ** The pipeline: cache, origin, format *)

Section Pipeline.

Context {rt : Runtime} {cfg : Config}.


Lemma stored_as_headers (r0 : Response) : res_headers (stored_as r0) = edge_headers.
Proof.
  unfold stored_as, spread_with_headers, new_Response.
  by destruct response_own_props.
Qed.

Lemma stored_as_body (r0 : Response) : res_body (stored_as r0) = res_body r0.
Proof.
  unfold stored_as, spread_with_headers, new_Response.
  by destruct response_own_props.
Qed.


Lemma bypassCache_iff (method : jsval) :
  bypassCache method = true
  ↔ method = Some (JStr "eth_blockNumber") ∨ method = Some (JStr "eth_estimateGas").
Proof.
  unfold bypassCache, is_string. split.
  - destruct method as [[| | |s| |]|]; try discriminate.
    intros H. apply orb_true_iff in H as [H|H]; apply String.eqb_eq in H; subst; auto.
  - by intros [-> | ->].
Qed.

(** [handlePost] on a parsed body, in terms of the cache and the loop. *)
Lemma handlePost_run (fuel : nat) (event : FetchEvent) (w : World) (body : JSON) :
  body_of event = Some body →
  body ≠ JNull →
  handlePost fuel event w
  = let request := ev_request event in
    let extra := Some [("id", get_prop "id" body)] in
    if bypassCache (get_prop "method" body) then
      match tryProvider fuel (req_url request) (Some request) w with
      | (Returns r0, w1) => formatResponse r0 extra w1
      | (Throws e, w1) => (Throws e, w1)
      | (Pending, w1) => (Pending, w1)
      end
    else
      let key := cacheKey_of request (get_prop "params" body) in
      let w0 := advance w [Cache_match key] 0 0 in
      match cache_match (cache w) key with
      | Some response => formatResponse response extra w0
      | None =>
          match tryProvider fuel (req_url key) (Some request) w0 with
          | (Returns r0, w1) =>
              formatResponse (stored_as r0) extra
                (put_world w1 key (stored_as r0)
                           [Cache_put key (stored_as r0); Wait_until])
          | (Throws e, w1) => (Throws e, w1)
          | (Pending, w1) => (Pending, w1)
          end
      end.
Proof.
  intros Hbody Hnull. rewrite (handlePost_unfold fuel event w body Hbody Hnull).
  cbn zeta. destruct (bypassCache (get_prop "method" body)).
  - unfold bind. rewrite getOriginResponse_eq. cbn [event_request].
    by destruct (tryProvider fuel (req_url (ev_request event))
                   (Some (ev_request event)) w) as [[r0|e|] w1].
  - unfold bind at 1. rewrite caches_match_eq.
    change (cache (advance w ?e ?d ?f)) with (cache w).
    destruct (cache_match (cache w) _) as [response|].
    + reflexivity.
    + unfold bind. rewrite getOriginResponse_eq. cbn [event_request].
      by destruct (tryProvider fuel _ (Some (ev_request event)) _) as [[r0|e|] w1].
Qed.

(** [handleGet], likewise.  The loop is entered without a request. *)
Lemma handleGet_run (fuel : nat) (event : FetchEvent) (w : World) :
  handleGet fuel event w
  = let request := ev_request event in
    let w0 := advance w [Cache_match request] 0 0 in
    match cache_match (cache w) request with
    | Some response => formatResponse response None w0
    | None =>
        match tryProvider fuel (req_url request) None w0 with
        | (Returns r0, w1) =>
            (Throws (TypeError "event.waitUntil is not a function"),
             put_world w1 request (stored_as r0) [Cache_put request (stored_as r0)])
        | (Throws e, w1) => (Throws e, w1)
        | (Pending, w1) => (Pending, w1)
        end
    end.
Proof.
  unfold handleGet. unfold bind at 1. rewrite caches_match_eq.
  change (cache (advance w ?e ?d ?f)) with (cache w). cbn zeta.
  destruct (cache_match (cache w) (ev_request event)) as [response|].
  - reflexivity.
  - unfold bind. rewrite getOriginResponse_eq. cbn [event_request].
    by destruct (tryProvider fuel _ None _) as [[r0|e|] w1].
Qed.

(** C7.  On a miss [handleGet] hands [getOriginResponse] the request
    where it expects the event, so the loop is entered with
    [event.request] of a request, which is [undefined]: every pass
    throws at [request.clone()] before it fetches, is caught, and runs
    again.  No response is obtained, nothing is fetched, nothing is
    stored. *)
Theorem handleGet_miss (fuel : nat) (event : FetchEvent) (w : World) :
  cache_match (cache w) (ev_request event) = None →
  answered (fst (handleGet fuel event w)) = false
  ∧ cache (snd (handleGet fuel event w)) = cache w
  ∧ fetched (snd (handleGet fuel event w)) = fetched w
  ∧ ∃ effs, trace (snd (handleGet fuel event w))
            = trace w ++ Cache_match (ev_request event) :: effs
            ∧ Forall (fun e => is_cache_effect e = false) effs.
Proof.
  intros Hmiss. rewrite handleGet_run. cbn zeta. rewrite Hmiss.
  destruct (tryProvider fuel (req_url (ev_request event)) None
              (advance w [Cache_match (ev_request event)] 0 0))
    as [o w1] eqn:Hrun.
  destruct (tryProvider_frame fuel _ _ _ _ _ Hrun)
    as (effs & d & f & -> & Heffs & _ & Hnone).
  destruct (Hnone eq_refl) as [Hans ->].
  destruct o as [r0|e|]; [discriminate|..];
    (split; [reflexivity|]; split; [reflexivity|]; split; [reflexivity|];
     exists effs; split; [cbn; by rewrite <- app_assoc | exact Heffs]).
Qed.

(** A hit is formatted and returned. *)
Lemma handleGet_hit (fuel : nat) (event : FetchEvent) (w : World)
    (response : Response) :
  cache_match (cache w) (ev_request event) = Some response →
  ∃ r, handleGet fuel event w
       = (Returns r, advance w [Cache_match (ev_request event)] 0 0)
       ∧ res_body r = res_body response ∧ status r = status response
       ∧ client_headers r.
Proof.
  intros Hhit. rewrite handleGet_run. cbn zeta. rewrite Hhit.
  destruct (formatResponse_plain response
              (advance w [Cache_match (ev_request event)] 0 0))
    as (r & Hr & Hbody & Hstatus).
  exists r. rewrite Hr. repeat split; try assumption.
  all: by apply (formatResponse_headers _ _ _ _ _ Hr).
Qed.

(** A bypassed POST: no cache operation, the cache as it was. *)
Lemma handlePost_bypass (fuel : nat) (event : FetchEvent) (w : World) (body : JSON) :
  body_of event = Some body →
  body ≠ JNull →
  bypassCache (get_prop "method" body) = true →
  cache (snd (handlePost fuel event w)) = cache w
  ∧ ∃ effs, trace (snd (handlePost fuel event w)) = trace w ++ effs
            ∧ Forall (fun e => is_cache_effect e = false) effs.
Proof.
  intros Hbody Hnull Hm.
  rewrite (handlePost_run fuel event w body Hbody Hnull). cbn zeta. rewrite Hm.
  destruct (tryProvider fuel (req_url (ev_request event)) (Some (ev_request event)) w)
    as [o w1] eqn:Hrun.
  destruct (tryProvider_frame fuel _ _ _ _ _ Hrun) as (effs & d & f & -> & Heffs & _).
  assert (Hw : snd (match o with
                    | Returns r0 =>
                        formatResponse r0 (Some [("id", get_prop "id" body)])
                                       (advance w effs d f)
                    | Throws e => (Throws e, advance w effs d f)
                    | Pending => (Pending, advance w effs d f)
                    end) = advance w effs d f)
    by (destruct o; [apply formatResponse_state | reflexivity | reflexivity]).
  rewrite Hw. split; [reflexivity|]. by exists effs.
Qed.

(** Any other POST first looks up the derived key. *)
Lemma handlePost_lookup (fuel : nat) (event : FetchEvent) (w : World) (body : JSON) :
  body_of event = Some body →
  body ≠ JNull →
  bypassCache (get_prop "method" body) = false →
  ∃ effs, trace (snd (handlePost fuel event w))
          = trace w
            ++ Cache_match (cacheKey_of (ev_request event) (get_prop "params" body))
               :: effs.
Proof.
  intros Hbody Hnull Hm.
  rewrite (handlePost_run fuel event w body Hbody Hnull). cbn zeta. rewrite Hm.
  set (key := cacheKey_of (ev_request event) (get_prop "params" body)).
  destruct (cache_match (cache w) key) as [response|].
  - rewrite formatResponse_state. by exists [].
  - destruct (tryProvider fuel (req_url key) (Some (ev_request event))
                (advance w [Cache_match key] 0 0)) as [o w1] eqn:Hrun.
    destruct (tryProvider_frame fuel _ _ _ _ _ Hrun) as (effs & d & f & Hw1 & _).
    destruct o as [r0|e|]; [rewrite formatResponse_state|..];
      subst w1; cbn; eexists; by rewrite <- !app_assoc.
Qed.

(** On a miss, what the loop returns is stored under that key. *)
Lemma handlePost_store (fuel : nat) (event : FetchEvent) (w w1 : World)
    (body : JSON) (r0 : Response) :
  body_of event = Some body →
  body ≠ JNull →
  bypassCache (get_prop "method" body) = false →
  let key := cacheKey_of (ev_request event) (get_prop "params" body) in
  cache_match (cache w) key = None →
  tryProvider fuel (req_url key) (Some (ev_request event))
              (advance w [Cache_match key] 0 0) = (Returns r0, w1) →
  trace (snd (handlePost fuel event w))
  = trace w1 ++ [Cache_put key (stored_as r0); Wait_until]
  ∧ cache (snd (handlePost fuel event w)) = cache_put (cache w) key (stored_as r0).
Proof.
  intros Hbody Hnull Hm key Hmiss Hrun.
  rewrite (handlePost_run fuel event w body Hbody Hnull). cbn zeta. rewrite Hm.
  fold key. rewrite Hmiss, Hrun, formatResponse_state.
  destruct (tryProvider_frame fuel _ _ _ _ _ Hrun) as (effs & d & f & -> & _).
  by cbn.
Qed.

(** A cacheable POST that misses the cache is answered as soon as a pass
    of the loop is: the answer is stored, and returned with the [id] of
    the request. *)
Lemma handlePost_miss_answers (fuel : nat) (event : FetchEvent) (w : World)
    (body : JSON) (k : nat) (r0 : Response) (originalBody : JSON) :
  body_of event = Some body →
  body ≠ JNull →
  bypassCache (get_prop "method" body) = false →
  let request := ev_request event in
  let key := cacheKey_of request (get_prop "params" body) in
  let w0 := advance w [Cache_match key] 0 0 in
  cache_match (cache w) key = None →
  (∀ j, is_Some (select (draw w j))) →
  (∀ j, (j < k)%nat →
        ∃ e, failed (retarget (chosen w j) (req_url key)) (promise w j) e) →
  succeeded (promise w k) r0 →
  (k < fuel)%nat →
  JSON_parse (default "" (res_body r0)) = Some originalBody →
  ∃ r, handlePost fuel event w
       = (Returns r,
          put_world (after (req_url key) request w0 (S k)) key (stored_as r0)
                    [Cache_put key (stored_as r0); Wait_until])
       ∧ res_body r
         = Some (JSON_stringify_object
                   (spread2 originalBody [("id", get_prop "id" body)]))
       ∧ status r = status (stored_as r0).
Proof.
  intros Hbody Hnull Hm request key w0 Hmiss Hsel Hfail Hgood Hk Hj.
  rewrite (handlePost_run fuel event w body Hbody Hnull). cbn zeta. rewrite Hm.
  fold request key w0. rewrite Hmiss.
  rewrite (tryProvider_answers request k fuel (req_url key) w0 r0).
  - apply formatResponse_parsed. by rewrite stored_as_body.
  - exact Hsel.
  - exact Hk.
  - intros j Hlt. destruct (Hfail j Hlt) as [e He]. exists e.
    by apply verdict_inr.
  - by apply verdict_inl.
Qed.

(** C3.  A POST whose [method] is [eth_blockNumber] or
    [eth_estimateGas] performs no cache operation and leaves the cache
    as it was.  With any other [method] (or none) the handler first
    looks up the derived key, and on a miss, once the loop has obtained
    a response, stores it under that key. *)
Theorem bypass_policy (fuel : nat) (event : FetchEvent) (w : World) (body : JSON) :
  body_of event = Some body →
  body ≠ JNull →
  let request := ev_request event in
  let method := get_prop "method" body in
  let key := cacheKey_of request (get_prop "params" body) in
  let w' := snd (handlePost fuel event w) in
  (method = Some (JStr "eth_blockNumber") ∨ method = Some (JStr "eth_estimateGas") →
     cache w' = cache w
     ∧ ∃ effs, trace w' = trace w ++ effs
               ∧ Forall (fun e => is_cache_effect e = false) effs)
  ∧ (method ≠ Some (JStr "eth_blockNumber") →
     method ≠ Some (JStr "eth_estimateGas") →
     (∃ effs, trace w' = trace w ++ Cache_match key :: effs)
     ∧ (cache_match (cache w) key = None →
        ∀ r0 w1,
          tryProvider fuel (req_url key) (Some request)
                      (advance w [Cache_match key] 0 0) = (Returns r0, w1) →
          trace w' = trace w1 ++ [Cache_put key (stored_as r0); Wait_until]
          ∧ cache w' = cache_put (cache w) key (stored_as r0))).
Proof.
  intros Hbody Hnull request method key w'. split.
  - intros Hm. apply bypassCache_iff in Hm. by apply (handlePost_bypass fuel event w body).
  - intros Hm1 Hm2.
    assert (Hm : bypassCache method = false).
    { apply not_true_iff_false. rewrite bypassCache_iff. by intros [?|?]. }
    split; [by apply handlePost_lookup|].
    intros Hmiss r0 w1 Hrun. by apply (handlePost_store fuel event w w1 body r0).
Qed.




End Pipeline.

(** ** What the client receives *)

Section Client.

Context {rt : Runtime} {cfg : Config}.

(** A POST that returns has formatted, with the [id] of its body, a
    response found in the cache under the derived key or made from an
    ok answer of the origin. *)
Lemma handlePost_formats (fuel : nat) (event : FetchEvent) (w w' : World)
    (r : Response) :
  handlePost fuel event w = (Returns r, w') →
  ∃ body response w0,
    body_of event = Some body
    ∧ body ≠ JNull
    ∧ formatResponse response (Some [("id", get_prop "id" body)]) w0 = (Returns r, w')
    ∧ ((bypassCache (get_prop "method" body) = false
        ∧ cache_match (cache w)
            (cacheKey_of (ev_request event) (get_prop "params" body))
          = Some response)
       ∨ from_origin w response).
Proof.
  intros Hrun.
  destruct (body_of event) as [body|] eqn:Hbody;
    [|by rewrite (handlePost_unparsed fuel event w Hbody) in Hrun].
  assert (Hcase : body = JNull ∨ body ≠ JNull) by (destruct body; auto).
  destruct Hcase as [->|Hnull];
    [by rewrite (handlePost_null fuel event w Hbody) in Hrun|].
  rewrite (handlePost_run fuel event w body Hbody Hnull) in Hrun. cbn zeta in Hrun.
  exists body.
  destruct (bypassCache (get_prop "method" body)) eqn:Hm.
  - destruct (tryProvider fuel _ _ w) as [[r0|e|] w1] eqn:Hloop; try discriminate.
    exists r0, w1. repeat split; try assumption. right.
    destruct (tryProvider_frame fuel _ _ _ _ _ Hloop) as (_ & _ & _ & _ & _ & Hret & _).
    destruct (Hret r0 eq_refl) as (n & s & _ & Hs & Hf & Hr & Hok).
    by exists n, s, r0.
  - destruct (cache_match (cache w) _) as [response|] eqn:Hlook.
    + exists response. eexists. repeat split; try eassumption. by left.
    + destruct (tryProvider fuel _ _ _) as [[r0|e|] w1] eqn:Hloop; try discriminate.
      exists (stored_as r0). eexists. repeat split; try eassumption. right.
      destruct (tryProvider_frame fuel _ _ _ _ _ Hloop) as (_ & _ & _ & _ & _ & Hret & _).
      destruct (Hret r0 eq_refl) as (n & s & _ & Hs & Hf & Hr & Hok).
      exists n, s, r0. by repeat split.
Qed.

(** A GET that returns has formatted a response found in the cache. *)
Lemma handleGet_formats (fuel : nat) (event : FetchEvent) (w w' : World)
    (r : Response) :
  handleGet fuel event w = (Returns r, w') →
  ∃ response w0,
    cache_match (cache w) (ev_request event) = Some response
    ∧ formatResponse response None w0 = (Returns r, w').
Proof.
  intros Hrun. rewrite handleGet_run in Hrun. cbn zeta in Hrun.
  destruct (cache_match (cache w) (ev_request event)) as [response|] eqn:Hlook.
  - by exists response; eexists.
  - by destruct (tryProvider fuel _ None _) as [[r0|e|] w1].
Qed.

(** C4.  Every response that [formatResponse] makes, and so every
    response that the GET and the POST handler return, carries
    [Cache-Control: max-age=<BROWSER_CACHE_TTL>] and the three
    [Access-Control-Allow-*: *] headers, whatever response it was made
    from. *)
Theorem formatted_headers :
  (∀ response body w w' r,
     formatResponse response body w = (Returns r, w') → client_headers r)
  ∧ (∀ fuel event w w' r,
       handleGet fuel event w = (Returns r, w') → client_headers r)
  ∧ (∀ fuel event w w' r,
       handlePost fuel event w = (Returns r, w') → client_headers r).
Proof.
  split; [|split].
  - intros response body w w' r. apply formatResponse_headers.
  - intros fuel event w w' r Hrun.
    destruct (handleGet_formats _ _ _ _ _ Hrun) as (response & w0 & _ & Hf).
    by apply (formatResponse_headers _ _ _ _ _ Hf).
  - intros fuel event w w' r Hrun.
    destruct (handlePost_formats _ _ _ _ _ Hrun)
      as (body & response & w0 & _ & _ & Hf & _).
    by apply (formatResponse_headers _ _ _ _ _ Hf).
Qed.


(** C10.  When the request body has no [id], the body of the response
    to a POST has no [id] either, whatever the cached or origin body
    had: the merge sets [id] to [undefined] and the serialisation skips
    it. *)
Theorem post_without_id (fuel : nat) (event : FetchEvent) (w w' : World)
    (r : Response) (body : JSON) :
  body_of event = Some body →
  get_prop "id" body = None →
  handlePost fuel event w = (Returns r, w') →
  ∃ response originalBody,
    (cache_match (cache w)
       (cacheKey_of (ev_request event) (get_prop "params" body)) = Some response
     ∨ from_origin w response)
    ∧ JSON_parse (default "" (res_body response)) = Some originalBody
    ∧ let merged := obj_set "id" None (spread2 originalBody []) in
      obj_get "id" merged = Some None
      ∧ res_body r = Some (stringify (JObj (defined_props merged)))
      ∧ get_prop "id" (JObj (defined_props merged)) = None
      ∧ ∀ v, ¬ In ("id", v) (defined_props merged).
Proof.
  intros Hbody Hid Hrun.
  destruct (handlePost_formats _ _ _ _ _ Hrun)
    as (body' & response & w0 & Hbody' & _ & Hf & Hsrc).
  rewrite Hbody in Hbody'. injection Hbody' as <-. rewrite Hid in Hf.
  destruct (formatResponse_extra _ _ _ _ _ Hf) as (originalBody & Hj & Hb & _).
  exists response, originalBody.
  split; [destruct Hsrc as [[_ ?]|?]; auto|]. split; [exact Hj|]. cbn zeta.
  destruct (spread2_id_wins originalBody None) as (Hget & Hnone & _).
  rewrite spread2_id in Hget, Hnone.
  split; [apply obj_set_get_eq|]. split; [exact Hb|]. split; [exact Hget|].
  intros v Hin. by specialize (Hnone v Hin).
Qed.

(** C2.  The cache key of a POST whose body holds [params] is a GET
    request with the headers of the request and its URL, the path
    replaced by ["/posts"], the path of the request and the digest:
    the 32 bytes of the SHA-256 of the UTF-8 text of
    [JSON.stringify(params)], two lowercase hexadecimal digits each.
    It is a function of the URL, the headers and [params], and it is
    the key that [handlePost] looks up. *)
Theorem cacheKey_derivation (request : Request) (p : JSON) :
  let key := cacheKey_of request (Some p) in
  let d := SHA256.digest (TextEncoder_encode (Some (stringify p))) in
  req_method key = "GET"
  ∧ pathname (req_url key)
    = "/posts" +:+ pathname (req_url request) +:+ join "" (map two_hex d)
  ∧ length d = 32%nat
  ∧ req_headers key = req_headers request
  ∧ req_url key = set_pathname (pathname (req_url key)) (req_url request)
  ∧ (∀ request', req_url request' = req_url request →
                 req_headers request' = req_headers request →
                 cacheKey_of request' (Some p) = key)
  ∧ (∀ fuel event w body,
       ev_request event = request →
       body_of event = Some body →
       get_prop "params" body = Some p →
       bypassCache (get_prop "method" body) = false →
       ∃ effs, trace (snd (handlePost fuel event w))
               = trace w ++ Cache_match key :: effs).
Proof.
  cbn zeta. split; [reflexivity|]. split.
  { unfold cacheKey_of. cbn [req_url set_pathname pathname JSON_stringify fmap option_fmap option_map].
    by rewrite sha256_hex. }
  split; [apply digest_length|]. split; [reflexivity|]. split; [reflexivity|].
  split.
  - intros request' Hurl Hh. unfold cacheKey_of. by rewrite Hurl, Hh.
  - intros fuel event w body <- Hbody Hp Hm.
    assert (Hnull : body ≠ JNull) by (intros ->; discriminate).
    rewrite <- Hp. by apply handlePost_lookup.
Qed.

(** C9, amended.  A POST whose body is not JSON, or is the
    JSON value [null], makes the handler throw before it does anything:
    no response, no effect, and the listener adds no recovery. *)
Theorem malformed_post (fuel : nat) (event : FetchEvent) (w : World) :
  body_of event = None ∨ body_of event = Some JNull →
  (∃ e, handlePost fuel event w = (Throws e, w))
  ∧ answered (fst (handlePost fuel event w)) = false
  ∧ (toUpperCase (req_method (ev_request event)) = "POST" →
     on_fetch fuel event w = handlePost fuel event w).
Proof.
  intros Hbody.
  assert (Hthrow : ∃ e, handlePost fuel event w = (Throws e, w)).
  { destruct Hbody as [Hbody|Hbody].
    - eexists. by apply handlePost_unparsed.
    - eexists. by apply handlePost_null. }
  split; [exact Hthrow|]. destruct Hthrow as [e He]. rewrite He.
  split; [reflexivity|]. intros Hpost. unfold on_fetch. rewrite Hpost. exact He.
Qed.

(** [method] and [jsonrpc] are read but never reach the key: two
    cacheable POSTs to the same URL with the same headers and the same
    [params] look up the same key, whatever their [method] and
    [jsonrpc] are. *)
Lemma cacheKey_ignores_method (fuel : nat) (event1 event2 : FetchEvent)
    (w1 w2 : World) (body1 body2 : JSON) :
  body_of event1 = Some body1 → body1 ≠ JNull →
  body_of event2 = Some body2 → body2 ≠ JNull →
  bypassCache (get_prop "method" body1) = false →
  bypassCache (get_prop "method" body2) = false →
  req_url (ev_request event1) = req_url (ev_request event2) →
  req_headers (ev_request event1) = req_headers (ev_request event2) →
  get_prop "params" body1 = get_prop "params" body2 →
  ∃ key effs1 effs2,
    trace (snd (handlePost fuel event1 w1)) = trace w1 ++ Cache_match key :: effs1
    ∧ trace (snd (handlePost fuel event2 w2)) = trace w2 ++ Cache_match key :: effs2.
Proof.
  intros Hb1 Hn1 Hb2 Hn2 Hm1 Hm2 Hurl Hh Hp.
  destruct (handlePost_lookup fuel event1 w1 body1 Hb1 Hn1 Hm1) as [effs1 Ht1].
  destruct (handlePost_lookup fuel event2 w2 body2 Hb2 Hn2 Hm2) as [effs2 Ht2].
  exists (cacheKey_of (ev_request event1) (get_prop "params" body1)), effs1, effs2.
  split; [exact Ht1|]. rewrite Ht2. do 3 f_equal.
  unfold cacheKey_of. by rewrite Hurl, Hh, Hp.
Qed.

End Client.

(** ** Beyond the pipeline: the other paths of the worker *)

Section Coverage.

Context {rt : Runtime} {cfg : Config}.

Lemma Headers_get_set (name k v : string) (h : Headers) :
  Headers_get name (Headers_set k v h)
  = if decide (toLowerCase k = toLowerCase name) then Some v else Headers_get name h.
Proof. unfold Headers_get, Headers_set. apply lookup_insert. Qed.

Lemma Headers_get_set_ne (name k v : string) (h : Headers) :
  toLowerCase name ≠ toLowerCase k →
  Headers_get name (Headers_set k v h) = Headers_get name h.
Proof. intros Hne. rewrite Headers_get_set. by destruct (decide _). Qed.

(** The headers a formatted response takes over from the response it was
    made from. *)
Lemma formatResponse_keeps (response : Response) (body : option Obj)
    (w w' : World) (r : Response) :
  formatResponse response body w = (Returns r, w') →
  status r = status response
  ∧ statusText r = statusText response
  ∧ (∀ name, ¬ set_by_format name →
             toLowerCase name ≠ "content-type" ∨ body = None →
             Headers_get name (res_headers r) = Headers_get name (res_headers response))
  ∧ (∀ name ct, ¬ set_by_format name →
                Headers_get name (res_headers response) = Some ct →
                Headers_get name (res_headers r) = Some ct).
Proof.
  unfold formatResponse, bind, json, ret, throw, set_by_format.
  assert (Hset : ∀ name (h : Headers),
             ¬ (toLowerCase name = "cache-control"
                ∨ toLowerCase name = "access-control-allow-method"
                ∨ toLowerCase name = "access-control-allow-origin"
                ∨ toLowerCase name = "access-control-allow-headers") →
             Headers_get name
               (Headers_set "Access-Control-Allow-Headers" "*"
                  (Headers_set "Access-Control-Allow-Origin" "*"
                     (Headers_set "Access-Control-Allow-Method" "*"
                        (Headers_set "Cache-Control"
                           ("max-age=" +:+ pretty BROWSER_CACHE_TTL) h))))
             = Headers_get name h).
  { intros name h Hn. rewrite !Headers_get_set_ne; [reflexivity|..];
      intros E; apply Hn; rewrite E; auto. }
  destruct body as [extra|].
  - destruct (JSON_parse (default "" (res_body response))); [|discriminate].
    intros [= <- _]. cbn [status statusText res_headers new_Response init_of
                             init_status init_statusText init_headers default from_option].
    split; [reflexivity|]. split; [reflexivity|]. split.
    + intros name Hn [Hct|?]; [|discriminate]. rewrite (Hset _ _ Hn).
      destruct (res_headers response !! "content-type") eqn:Hc; [reflexivity|].
      unfold Headers_get. by rewrite lookup_insert_ne.
    + intros name ct Hn Hget. rewrite (Hset _ _ Hn).
      destruct (res_headers response !! "content-type") eqn:Hc; [exact Hget|].
      unfold Headers_get in *. rewrite lookup_insert_ne; [exact Hget|].
      intros E. rewrite <- E in Hget. congruence.
  - intros [= <- _]. cbn [status statusText res_headers new_Response init_of
                             init_status init_statusText init_headers default from_option].
    split; [reflexivity|]. split; [reflexivity|]. split.
    + intros name Hn _. apply (Hset _ _ Hn).
    + intros name ct Hn Hget. by rewrite (Hset _ _ Hn).
Qed.

(** X1.  A request whose method is OPTIONS in any letter case is answered
    at once, with status 200 and no body, and nothing else happens: no
    lookup, no fetch, no store.  When it carries [Origin],
    [Access-Control-Request-Method] and [Access-Control-Request-Headers]
    the answer allows every origin, the four methods, a day of
    preflight caching and exactly the headers that were asked for;
    when one of the three is missing the answer has the [Allow] header
    and grants nothing.  Neither answer has a [Cache-Control] header. *)
Theorem options_answered (fuel : nat) (event : FetchEvent) (w : World) :
  let h := req_headers (ev_request event) in
  toUpperCase (req_method (ev_request event)) = "OPTIONS" →
  ∃ r, on_fetch fuel event w = (Returns r, w)
       ∧ status r = 200%Z
       ∧ res_body r = None
       ∧ Headers_get "Cache-Control" (res_headers r) = None
       ∧ (∀ requested,
            is_Some (Headers_get "Origin" h) →
            is_Some (Headers_get "Access-Control-Request-Method" h) →
            Headers_get "Access-Control-Request-Headers" h = Some requested →
            Headers_get "Access-Control-Allow-Headers" (res_headers r) = Some requested
            ∧ Headers_get "Access-Control-Allow-Origin" (res_headers r) = Some "*"
            ∧ Headers_get "Access-Control-Allow-Methods" (res_headers r)
              = Some "GET,HEAD,POST,OPTIONS"
            ∧ Headers_get "Access-Control-Max-Age" (res_headers r) = Some "86400"
            ∧ Headers_get "Allow" (res_headers r) = None)
       ∧ (Headers_get "Origin" h = None
          ∨ Headers_get "Access-Control-Request-Method" h = None
          ∨ Headers_get "Access-Control-Request-Headers" h = None →
          Headers_get "Allow" (res_headers r) = Some "GET, HEAD, POST, OPTIONS"
          ∧ Headers_get "Access-Control-Allow-Origin" (res_headers r) = None
          ∧ Headers_get "Access-Control-Allow-Headers" (res_headers r) = None).
Proof.
  intros h Hopt. unfold on_fetch. rewrite Hopt. cbn [String.eqb Ascii.eqb Bool.eqb].
  unfold handleOptions, ret. fold h.
  destruct (Headers_get "Origin" h) as [o|] eqn:Ho;
    destruct (Headers_get "Access-Control-Request-Method" h) as [m|] eqn:Hm;
    destruct (Headers_get "Access-Control-Request-Headers" h) as [a|] eqn:Ha;
    eexists; (split; [reflexivity|]);
    cbn [status res_body res_headers new_Response init_status init_statusText
           init_headers default from_option];
    (split; [reflexivity|]); (split; [reflexivity|]);
    unfold Headers_of, Headers_get, Headers_set; cbn [fold_left];
    (split; [by simplify_map_eq|]); split.
  all: try (intros requested [? ?] [? ?] ?; discriminate).
  all: try (intros [?|[?|?]]; discriminate).
  all: try (intros _; repeat split; by simplify_map_eq).
  intros requested _ _ [= <-]. repeat split; by simplify_map_eq.
Qed.

(** X2.  A request whose method is neither OPTIONS nor POST (GET, but
    also HEAD, PUT or DELETE) is looked up in the cache as it is.  On a
    hit the cached response is returned with its body, status, status
    text and every header that [formatResponse] does not set, and the
    lookup is all that happens: no fetch, no store.  And only a hit is
    ever answered. *)
Theorem get_served_from_cache (fuel : nat) (event : FetchEvent) (w : World) :
  let request := ev_request event in
  toUpperCase (req_method request) ≠ "OPTIONS" →
  toUpperCase (req_method request) ≠ "POST" →
  (∀ response, cache_match (cache w) request = Some response →
     ∃ r, on_fetch fuel event w = (Returns r, advance w [Cache_match request] 0 0)
          ∧ res_body r = res_body response
          ∧ status r = status response
          ∧ statusText r = statusText response
          ∧ ∀ name, ¬ set_by_format name →
                    Headers_get name (res_headers r)
                    = Headers_get name (res_headers response))
  ∧ (∀ r w', on_fetch fuel event w = (Returns r, w') →
       ∃ response, cache_match (cache w) request = Some response
                   ∧ res_body r = res_body response
                   ∧ w' = advance w [Cache_match request] 0 0).
Proof.
  intros request Hopt Hpost.
  assert (Hget : on_fetch fuel event w = handleGet fuel event w).
  { unfold on_fetch. apply String.eqb_neq in Hopt, Hpost. fold request.
    by rewrite Hopt, Hpost. }
  rewrite Hget. split.
  - intros response Hhit. rewrite handleGet_run. cbn zeta. fold request. rewrite Hhit.
    destruct (formatResponse_plain response (advance w [Cache_match request] 0 0))
      as (r & Hr & Hbody & Hstatus).
    exists r. split; [exact Hr|]. split; [exact Hbody|].
    destruct (formatResponse_keeps _ _ _ _ _ Hr) as (Hst & Hstt & Hh & _).
    split; [exact Hst|]. split; [exact Hstt|].
    intros name Hn. apply Hh; [exact Hn | by right].
  - intros r w' Hrun. rewrite handleGet_run in Hrun. cbn zeta in Hrun. fold request in Hrun.
    destruct (cache_match (cache w) request) as [response|] eqn:Hlook.
    + exists response. split; [reflexivity|].
      destruct (formatResponse_plain response (advance w [Cache_match request] 0 0))
        as (r' & Hr & Hbody & _).
      rewrite Hr in Hrun. injection Hrun as <- <-. by split.
    + destruct (tryProvider fuel (req_url request) None
                  (advance w [Cache_match request] 0 0)) as [o w1] eqn:Hloop.
      destruct (tryProvider_frame fuel _ _ _ _ _ Hloop)
        as (effs & d & f & _ & _ & _ & Hnone).
      destruct (Hnone eq_refl) as [Hans _]. clear Hnone Hloop.
      destruct o; discriminate.
Qed.

(** X3.  A cacheable POST that hits the cache is answered from it: the
    cached body is parsed and the [id] of the request merged in, the
    status and the other headers are the cached response's, and the
    lookup is all that happens: the origin is not asked and nothing is
    stored. *)
Theorem post_served_from_cache (fuel : nat) (event : FetchEvent) (w : World)
    (body : JSON) (response : Response) (originalBody : JSON) :
  body_of event = Some body →
  body ≠ JNull →
  bypassCache (get_prop "method" body) = false →
  let key := cacheKey_of (ev_request event) (get_prop "params" body) in
  cache_match (cache w) key = Some response →
  JSON_parse (default "" (res_body response)) = Some originalBody →
  ∃ r, handlePost fuel event w = (Returns r, advance w [Cache_match key] 0 0)
       ∧ res_body r
         = Some (JSON_stringify_object
                   (spread2 originalBody [("id", get_prop "id" body)]))
       ∧ status r = status response
       ∧ ∀ name, ¬ set_by_format name → toLowerCase name ≠ "content-type" →
                 Headers_get name (res_headers r)
                 = Headers_get name (res_headers response).
Proof.
  intros Hbody Hnull Hm key Hhit Hj.
  rewrite (handlePost_run fuel event w body Hbody Hnull). cbn zeta. rewrite Hm.
  fold key. rewrite Hhit.
  destruct (formatResponse_parsed response [("id", get_prop "id" body)]
              (advance w [Cache_match key] 0 0) originalBody Hj)
    as (r & Hr & Hb & Hst).
  exists r. split; [exact Hr|]. split; [exact Hb|]. split; [exact Hst|].
  destruct (formatResponse_keeps _ _ _ _ _ Hr) as (_ & _ & Hh & _).
  intros name Hn Hct. apply Hh; [exact Hn | by left].
Qed.

(** X4.  [formatResponse] changes nothing outside and nothing of the
    response but the four headers it sets (and the body, when it merges
    extra fields in): the status, the status text and every other header
    that the response had come out as they were.  Without extra fields
    the body too. *)
Theorem formatResponse_passes_through (response : Response) (body : option Obj)
    (w w' : World) (r : Response) :
  formatResponse response body w = (Returns r, w') →
  w' = w
  ∧ status r = status response
  ∧ statusText r = statusText response
  ∧ (∀ name value, ¬ set_by_format name →
                   Headers_get name (res_headers response) = Some value →
                   Headers_get name (res_headers r) = Some value)
  ∧ (body = None →
     res_body r = res_body response
     ∧ ∀ name, ¬ set_by_format name →
               Headers_get name (res_headers r)
               = Headers_get name (res_headers response)).
Proof.
  intros Hr. pose proof (formatResponse_state response body w) as Hw.
  rewrite Hr in Hw. cbn in Hw.
  destruct (formatResponse_keeps _ _ _ _ _ Hr) as (Hst & Hstt & Hh & Hkeep).
  split; [exact Hw|]. split; [exact Hst|]. split; [exact Hstt|].
  split; [exact Hkeep|]. intros ->. split.
  - destruct (formatResponse_plain response w) as (r' & Hr' & Hb & _).
    rewrite Hr' in Hr. by injection Hr as <- _.
  - intros name Hn. apply Hh; [exact Hn | by right].
Qed.

(** X5.  A cacheable POST stores the origin's ok answer before it parses
    it.  When the body of that answer is not JSON the handler throws
    after the store, so the entry stays; and whenever the cache returns
    an entry whose body is not JSON the handler throws right after the
    lookup, without asking the origin. *)
Theorem unparseable_answer (fuel : nat) (event : FetchEvent) (w : World)
    (body : JSON) :
  body_of event = Some body →
  body ≠ JNull →
  bypassCache (get_prop "method" body) = false →
  let key := cacheKey_of (ev_request event) (get_prop "params" body) in
  (∀ r0 w1,
     cache_match (cache w) key = None →
     tryProvider fuel (req_url key) (Some (ev_request event))
                 (advance w [Cache_match key] 0 0) = (Returns r0, w1) →
     JSON_parse (default "" (res_body r0)) = None →
     handlePost fuel event w
     = (Throws (SyntaxError "Unexpected token in JSON"),
        put_world w1 key (stored_as r0) [Cache_put key (stored_as r0); Wait_until]))
  ∧ (∀ response,
       cache_match (cache w) key = Some response →
       JSON_parse (default "" (res_body response)) = None →
       handlePost fuel event w
       = (Throws (SyntaxError "Unexpected token in JSON"),
          advance w [Cache_match key] 0 0)).
Proof.
  intros Hbody Hnull Hm key. split.
  - intros r0 w1 Hmiss Hrun Hj.
    rewrite (handlePost_run fuel event w body Hbody Hnull). cbn zeta. rewrite Hm.
    fold key. rewrite Hmiss, Hrun. apply formatResponse_unparsed.
    by rewrite stored_as_body.
  - intros response Hhit Hj.
    rewrite (handlePost_run fuel event w body Hbody Hnull). cbn zeta. rewrite Hm.
    fold key. rewrite Hhit. by apply formatResponse_unparsed.
Qed.

Lemma pick_empty (u : Q) : pick u 0 = 0%Z.
Proof.
  unfold pick, Double.round.
  assert (H : Qle_bool (u * inject_Z (Z.of_nat 0)) 0 = true).
  { apply Qle_bool_iff. cbn [Z.of_nat]. rewrite Qmult_0_r. apply Qle_refl. }
  by rewrite H.
Qed.

(** X6.  With an empty list of providers the loop throws on its first
    pass, at [new URL(undefined)], outside its [try]: the failure is not
    retried, nothing is logged or fetched, and a POST that reaches the
    loop ends with that [TypeError] and stores nothing. *)
Theorem empty_pool (fuel : nat) (w : World) :
  PROVIDERS = [] →
  (∀ url request,
     tryProvider (S fuel) url request w
     = (Throws (TypeError "Invalid URL"), advance w [] 1 0))
  ∧ (∀ event body,
       body_of event = Some body →
       body ≠ JNull →
       bypassCache (get_prop "method" body) = true
       ∨ cache_match (cache w)
           (cacheKey_of (ev_request event) (get_prop "params" body)) = None →
       ∃ w', handlePost (S fuel) event w = (Throws (TypeError "Invalid URL"), w')
             ∧ cache w' = cache w ∧ fetched w' = fetched w).
Proof.
  intros Hempty.
  assert (Hloop : ∀ url request w0,
            tryProvider (S fuel) url request w0
            = (Throws (TypeError "Invalid URL"), advance w0 [] 1 0)).
  { intros url request w0. rewrite tryProvider_unfold.
    unfold select. rewrite Hempty. cbn [length]. by rewrite pick_empty. }
  split; [intros; apply Hloop|].
  intros event body Hbody Hnull Hcase.
  rewrite (handlePost_run (S fuel) event w body Hbody Hnull). cbn zeta.
  destruct (bypassCache (get_prop "method" body)) eqn:Hm.
  - rewrite Hloop. by eexists.
  - destruct Hcase as [?|Hmiss]; [discriminate|]. rewrite Hmiss, Hloop. by eexists.
Qed.

(** X7.  The loop has no limit and no pause: while every pass fails
    (timeout, rejection or non-ok answer) it is still running after any
    number of passes, having fetched once and logged one error per pass,
    and a POST waiting for it is not answered and stores nothing. *)
Theorem never_gives_up (fuel : nat) (url : URL) (request : Request) (w : World) :
  (∀ j, is_Some (select (draw w j))) →
  (∀ j, ∃ e, failed (retarget (chosen w j) url) (promise w j) e) →
  tryProvider fuel url (Some request) w = (Pending, after url request w fuel)
  ∧ fetched (after url request w fuel) = (fuel + fetched w)%nat
  ∧ cache (after url request w fuel) = cache w
  ∧ (∀ event body,
       ev_request event = request →
       body_of event = Some body →
       body ≠ JNull →
       bypassCache (get_prop "method" body) = true →
       url = req_url request →
       handlePost fuel event w = (Pending, after url request w fuel)).
Proof.
  intros Hsel Hfail.
  assert (Hrun : tryProvider fuel url (Some request) w
                 = (Pending, after url request w fuel)).
  { apply tryProvider_pending; [exact Hsel|].
    intros j _. destruct (Hfail j) as [e He]. exists e. by apply verdict_inr. }
  split; [exact Hrun|]. split; [reflexivity|]. split; [reflexivity|].
  intros event body <- Hbody Hnull Hm ->.
  rewrite (handlePost_run fuel event w body Hbody Hnull). cbn zeta.
  by rewrite Hm, Hrun.
Qed.

Lemma select_In (u : Q) (p : URL) : select u = Some p → In p PROVIDERS.
Proof.
  unfold select. destruct (pick u (length PROVIDERS) <? 0)%Z; [discriminate|].
  intros Hp. apply list_elem_of_In. by apply list_elem_of_lookup_2 in Hp.
Qed.

Lemma URL_retarget (url p : URL) : retarget p url = target_of url p.
Proof. reflexivity. Qed.

(** X8.  Whatever happens, every fetch of the loop goes to the host and
    the path of a provider of the list, with the scheme, the port and
    the query string of the URL the loop was given (the provider's own
    are not used), and is passed the request the loop was given.  In
    particular the path of the cache key is never sent to a provider. *)
Theorem fetch_targets (fuel : nat) (url : URL) (request : option Request)
    (w w' : World) (o : Outcome Response) :
  tryProvider fuel url request w = (o, w') →
  (∃ effs, trace w' = trace w ++ effs
     ∧ ∀ u init, In (Fetch_call u init) effs →
         request = Some init
         ∧ ∃ p, In p PROVIDERS ∧ u = URL_toString (target_of url p))
  ∧ ∀ rq params p,
      target_of (req_url (cacheKey_of rq params)) p = target_of (req_url rq) p.
Proof.
  intros Hrun. split; [|reflexivity].
  revert url w Hrun. induction fuel as [|fuel IH]; intros url w Hrun.
  - injection Hrun as _ <-. exists []. split; [by rewrite app_nil_r | intros ? ? []].
  - rewrite tryProvider_unfold in Hrun.
    destruct (select (draw w 0)) as [p|] eqn:Hp.
    2: { injection Hrun as _ <-. exists []. split; [reflexivity | intros ? ? []]. }
    apply select_In in Hp. cbn zeta in Hrun. destruct request as [req|].
    + destruct (verdict (retarget p url) (promise w 0)) as [r|e].
      * injection Hrun as _ <-. eexists. split; [reflexivity|].
        intros u init [Hin|[Hin|[]]]; [discriminate|]. injection Hin as <- <-.
        split; [reflexivity|]. by exists p.
      * apply IH in Hrun as (effs & Htrace & Hcalls).
        eexists. split; [rewrite Htrace; cbn [trace advance]; by rewrite <- app_assoc|].
        intros u init Hin. apply in_app_iff in Hin as [[Hin|[Hin|[Hin|[]]]]|Hin];
          try discriminate.
        -- injection Hin as <- <-. split; [reflexivity|]. by exists p.
        -- exact (Hcalls u init Hin).
    + apply IH in Hrun as (effs & Htrace & Hcalls).
      eexists. split; [rewrite Htrace; cbn [trace advance]; by rewrite <- app_assoc|].
      intros u init Hin. apply in_app_iff in Hin as [[Hin|[Hin|[]]]|Hin];
        try discriminate.
      exact (Hcalls u init Hin).
Qed.

(** X9.  In the response to a POST the status, the status text and the
    headers of the origin's answer are forwarded when the method is
    bypassed.  When the answer went through the cache path its headers
    are dropped: what is stored and formatted there has the edge
    [Cache-Control] header only, so the client sees none of the origin's
    headers (a content type can only be the one the new body brings).
    Its status and status text are still the origin's where the spread
    of a response copies them, and 200 and the empty text where it
    does not. *)
Theorem origin_headers (fuel : nat) (event : FetchEvent) (w w' : World)
    (body : JSON) (r : Response) :
  body_of event = Some body →
  handlePost fuel event w = (Returns r, w') →
  let request := ev_request event in
  let key := cacheKey_of request (get_prop "params" body) in
  (bypassCache (get_prop "method" body) = true →
   ∃ r0, tryProvider fuel (req_url request) (Some request) w = (Returns r0, w')
         ∧ status r = status r0
         ∧ statusText r = statusText r0
         ∧ ∀ name, ¬ set_by_format name → toLowerCase name ≠ "content-type" →
                   Headers_get name (res_headers r) = Headers_get name (res_headers r0))
  ∧ (bypassCache (get_prop "method" body) = false →
     cache_match (cache w) key = None →
     ∃ r0 w1,
       tryProvider fuel (req_url key) (Some request) (advance w [Cache_match key] 0 0)
       = (Returns r0, w1)
       ∧ status r = (if response_own_props then status r0 else 200%Z)
       ∧ statusText r = (if response_own_props then statusText r0 else "")
       ∧ ∀ name, ¬ set_by_format name → toLowerCase name ≠ "content-type" →
                 Headers_get name (res_headers r) = None).
Proof.
  intros Hbody Hrun request key.
  assert (Hnull : body ≠ JNull).
  { intros ->. by rewrite (handlePost_null fuel event w Hbody) in Hrun. }
  rewrite (handlePost_run fuel event w body Hbody Hnull) in Hrun. cbn zeta in Hrun.
  fold request key in Hrun. split.
  - intros Hm. rewrite Hm in Hrun.
    destruct (tryProvider fuel (req_url request) (Some request) w)
      as [[r0|e|] w1]; try discriminate.
    pose proof (formatResponse_state r0 (Some [("id", get_prop "id" body)]) w1) as Hw.
    rewrite Hrun in Hw. cbn in Hw. subst w1.
    destruct (formatResponse_keeps _ _ _ _ _ Hrun) as (Hst & Hstt & Hh & _).
    exists r0. repeat split; try assumption.
    intros name Hn Hct. apply Hh; [exact Hn | by left].
  - intros Hm Hmiss. rewrite Hm, Hmiss in Hrun.
    destruct (tryProvider fuel (req_url key) (Some request) _)
      as [[r0|e|] w1]; try discriminate.
    destruct (formatResponse_keeps _ _ _ _ _ Hrun) as (Hst & Hstt & Hh & _).
    exists r0, w1. split; [reflexivity|].
    split; [|split].
    + rewrite Hst. unfold stored_as, spread_with_headers, new_Response.
      by destruct response_own_props.
    + rewrite Hstt. unfold stored_as, spread_with_headers, new_Response.
      by destruct response_own_props.
    + intros name Hn Hct. rewrite Hh; [|exact Hn | by left].
      rewrite stored_as_headers. unfold Headers_get, edge_headers.
      apply lookup_singleton_ne. intros E. apply Hn. left. by symmetry.
Qed.

End Coverage.

(** ** The digest and the key, as texts *)

Lemma hex_digit_lower (d : N) : d < 16 → is_lower_hex (hex_digit d) = true.
Proof.
  intros Hd.
  assert (H : forallb (fun n => is_lower_hex (hex_digit n)) (map N.of_nat (seq 0 16)) = true)
    by (vm_compute; reflexivity).
  rewrite forallb_forall in H. apply H, in_map_iff.
  exists (N.to_nat d). split; [lia|]. apply in_seq. lia.
Qed.

Lemma string_forall_app (P : ascii → bool) (a b : string) :
  forallb P (String.list_ascii_of_string (a +:+ b))
  = forallb P (String.list_ascii_of_string a)
    && forallb P (String.list_ascii_of_string b).
Proof.
  induction a as [|c a IH]; [reflexivity|].
  rewrite string_app_cons. cbn [String.list_ascii_of_string forallb].
  by rewrite IH, andb_assoc.
Qed.

(** X10.  Whatever the message, [undefined] included, [sha256] returns 64
    characters, each a digit or a letter from [a] to [f]. *)
Theorem sha256_format (message : option string) :
  String.length (sha256 message) = 64%nat
  ∧ forallb is_lower_hex (String.list_ascii_of_string (sha256 message)) = true.
Proof.
  split; [apply sha256_length|].
  rewrite sha256_hex, join_empty_sep.
  generalize (digest_bytes (TextEncoder_encode message)).
  generalize (SHA256.digest (TextEncoder_encode message)).
  intros d Hd. induction Hd as [|b d Hb _ IH]; [reflexivity|].
  cbn [map fold_right]. rewrite string_forall_app, IH, andb_true_r.
  unfold two_hex. cbn [String.list_ascii_of_string forallb].
  rewrite !hex_digit_lower; [reflexivity|..].
  - apply N.mod_lt. discriminate.
  - apply N.Div0.div_lt_upper_bound. cbn beta in Hb. lia.
Qed.

Lemma string_app_inv_tail (a b x y : string) :
  String.length x = String.length y →
  a +:+ x = b +:+ y → a = b ∧ x = y.
Proof.
  intros Hlen. revert b. induction a as [|c a IH]; intros [|c' b] Heq.
  - by split.
  - exfalso. apply (f_equal String.length) in Heq.
    rewrite string_app_cons in Heq. cbn [String.length] in Heq.
    rewrite !string_length_app in Heq. cbn [String.length] in Heq. lia.
  - exfalso. apply (f_equal String.length) in Heq.
    rewrite string_app_cons in Heq. cbn [String.length] in Heq.
    rewrite !string_length_app in Heq. cbn [String.length] in Heq. lia.
  - rewrite !string_app_cons in Heq. injection Heq as -> Heq.
    destruct (IH b Heq) as [-> ->]. by split.
Qed.

Lemma string_app_inv_head (p a b : string) : p +:+ a = p +:+ b → a = b.
Proof.
  induction p as [|c p IH]; [by intros Heq|].
  rewrite !string_app_cons. intros [= Heq]. by apply IH.
Qed.

(** X11.  The path of a key is the path of the request and the digest
    written one after the other with nothing in between, and still two
    requests get the same key only when they agree on the whole URL, on
    the headers and on the digest of their [params]: the digest has a
    fixed length, so no path and digest can be read as another path and
    another digest. *)
Theorem cacheKey_separates (request1 request2 : Request) (params1 params2 : jsval) :
  cacheKey_of request1 params1 = cacheKey_of request2 params2 →
  req_url request1 = req_url request2
  ∧ req_headers request1 = req_headers request2
  ∧ sha256 (JSON_stringify params1) = sha256 (JSON_stringify params2).
Proof.
  unfold cacheKey_of, set_pathname. intros Heq.
  injection Heq as Hproto Hhost Hport Hpath Hsearch Hfrag Hheaders.
  apply string_app_inv_head in Hpath.
  apply string_app_inv_tail in Hpath as [Hpath Hhash];
    [|by rewrite !sha256_length].
  split; [|split; [exact Hheaders | exact Hhash]].
  destruct (req_url request1), (req_url request2). cbn in *. congruence.
Qed.

(** ** The earlier revision, [src/index.js] *)

Section EarlierRevision.

Context {rt : Runtime} {cfg : Config}.

(** One pass of the earlier loop. *)
Lemma earlier_pass (fuel : nat) (url : URL) (request : option Request) (w : World) :
  Earlier.tryProvider (S fuel) url request w
  = match select (draw w 0) with
    | None => (Throws (TypeError "Invalid URL"), advance w [] 1 0)
    | Some p =>
        let target := retarget p url in
        let call := Fetch_call (URL_toString target) (Earlier.init_or_bare target request) in
        match promise w 0 with
        | None => (Pending, advance w [call] 1 1)
        | Some s =>
            match result s with
            | Responds r => (Returns r, advance w [call] 1 1)
            | Rejects e =>
                Earlier.tryProvider fuel target request
                  (advance w [call; Console_error e] 1 1)
            end
        end
    end.
Proof.
  cbn [Earlier.tryProvider]. unfold bind at 1, Math_random.
  unfold bind at 1, provider_at, select, draw. cbn [Nat.add randoms drawn].
  destruct (if (pick (randoms w (drawn w)) (length PROVIDERS) <? 0)%Z
            then None
            else PROVIDERS !! Z.to_nat (pick (randoms w (drawn w)) (length PROVIDERS)))
    as [p|]; cbn [ret throw].
  2: { unfold advance. cbn. by rewrite app_nil_r. }
  unfold try_catch, bind at 1, fetch.
  cbn [cache trace randoms drawn network fetched].
  unfold Earlier.await, promise. cbn [Nat.add].
  destruct (network w (fetched w)) as [s|]; cbn [pending].
  - destruct (result s) as [r|e]; cbn [ret throw].
    + reflexivity.
    + unfold bind, console_error, emit, advance.
      cbn [cache trace randoms drawn network fetched].
      by rewrite <- !app_assoc.
  - reflexivity.
Qed.

Lemma earlier_pass_effects_advance (p url : URL) (request : option Request)
    (w : World) (effs : list Effect) (j : nat) :
  Earlier.pass_effects (retarget p url) request (advance w effs 1 1) j
  = Earlier.pass_effects url request w (S j).
Proof.
  unfold Earlier.pass_effects.
  by rewrite chosen_advance, promise_advance, retarget_retarget.
Qed.

Lemma earlier_after_advance (p url : URL) (request : option Request) (w : World)
    (k : nat) :
  Earlier.after (retarget p url) request
    (advance w (Earlier.pass_effects url request w 0) 1 1) k
  = Earlier.after url request w (S k).
Proof.
  unfold Earlier.after. rewrite advance_advance.
  replace (k + 1)%nat with (S k) by lia. f_equal.
  cbn [seq flat_map]. f_equal.
  rewrite <- seq_shift. generalize (seq 0 k). intros l.
  induction l as [|j l IHl]; [reflexivity|].
  cbn [map flat_map]. by rewrite earlier_pass_effects_advance, IHl.
Qed.

(** After [n] rejected fetches, pass [n] settles the call: with the
    answer of its fetch, or never. *)
Lemma earlier_settles (request : option Request) (n : nat) :
  ∀ (fuel : nat) (url : URL) (w : World),
    (∀ j, is_Some (select (draw w j))) →
    (n < fuel)%nat →
    (∀ j, (j < n)%nat → ∃ e, Earlier.rejected (promise w j) e) →
    Earlier.tryProvider fuel url request w
    = (match promise w n with
       | Some s =>
           match result s with
           | Responds r => Returns r
           | Rejects _ => fst (Earlier.tryProvider fuel url request w)
           end
       | None => Pending
       end,
       match promise w n with
       | Some s =>
           match result s with
           | Responds r => Earlier.after url request w (S n)
           | Rejects _ => snd (Earlier.tryProvider fuel url request w)
           end
       | None => Earlier.after url request w (S n)
       end).
Proof.
  induction n as [|n IH]; intros fuel url w Hsel Hfuel Hrej;
    (destruct fuel as [|fuel]; [lia|]).
  - destruct (promise w 0) as [s|] eqn:Hp0.
    + destruct (result s) as [r|e] eqn:Hr; [|by destruct (Earlier.tryProvider _ _ _ _)].
      rewrite earlier_pass. destruct (Hsel 0%nat) as [p Hp]. rewrite Hp.
      cbn zeta. rewrite Hp0, Hr. rewrite <- (chosen_select _ _ _ Hp).
      unfold Earlier.after, Earlier.pass_effects. cbn [seq flat_map].
      by rewrite Hp0, Hr, !app_nil_r.
    + rewrite earlier_pass. destruct (Hsel 0%nat) as [p Hp]. rewrite Hp.
      cbn zeta. rewrite Hp0. rewrite <- (chosen_select _ _ _ Hp).
      unfold Earlier.after, Earlier.pass_effects. cbn [seq flat_map].
      by rewrite Hp0, !app_nil_r.
  - destruct (promise w (S n)) as [s'|] eqn:HpS.
    2: { rewrite earlier_pass at 1. destruct (Hsel 0%nat) as [p Hp]. rewrite Hp.
         cbn zeta. rewrite <- (chosen_select _ _ _ Hp).
         destruct (Hrej 0%nat ltac:(lia)) as (e & s & Hs & He). rewrite Hs, He.
         assert (Heffs : [Fetch_call (URL_toString (retarget (chosen w 0) url))
                            (Earlier.init_or_bare (retarget (chosen w 0) url) request);
                          Console_error e]
                         = Earlier.pass_effects url request w 0)
           by (unfold Earlier.pass_effects; by rewrite Hs, He).
         rewrite Heffs, <- (earlier_after_advance (chosen w 0)).
         rewrite (IH fuel); [| |lia|].
         - by rewrite promise_advance, HpS.
         - intros j. rewrite draw_advance. apply Hsel.
         - intros j Hj. rewrite promise_advance. apply Hrej. lia. }
    destruct (result s') as [r|e'] eqn:Hr'; [|by destruct (Earlier.tryProvider _ _ _ _)].
    rewrite earlier_pass. destruct (Hsel 0%nat) as [p Hp]. rewrite Hp.
    cbn zeta. rewrite <- (chosen_select _ _ _ Hp).
    destruct (Hrej 0%nat ltac:(lia)) as (e & s & Hs & He). rewrite Hs, He.
    assert (Heffs : [Fetch_call (URL_toString (retarget (chosen w 0) url))
                       (Earlier.init_or_bare (retarget (chosen w 0) url) request);
                     Console_error e]
                    = Earlier.pass_effects url request w 0)
      by (unfold Earlier.pass_effects; by rewrite Hs, He).
    rewrite Heffs, <- (earlier_after_advance (chosen w 0)).
    rewrite (IH fuel); [| |lia|].
    + by rewrite promise_advance, HpS, Hr'.
    + intros j. rewrite draw_advance. apply Hsel.
    + intros j Hj. rewrite promise_advance. apply Hrej. lia.
Qed.

(** X12.  The loop of the earlier revision tries another provider only
    when a fetch is rejected.  It returns the answer of the first fetch
    that is answered at all, whatever its status and however late it
    comes; and while a fetch does not settle the loop waits for it:
    nothing ends the wait and no other provider is asked. *)
Theorem earlier_failover (fuel : nat) (url : URL) (request : option Request)
    (w : World) (k : nat) :
  (∀ j, is_Some (select (draw w j))) →
  (∀ j, (j < k)%nat → ∃ e, Earlier.rejected (promise w j) e) →
  (k < fuel)%nat →
  (∀ r, Earlier.responded (promise w k) r →
        Earlier.tryProvider fuel url request w
        = (Returns r, Earlier.after url request w (S k)))
  ∧ (promise w k = None →
     Earlier.tryProvider fuel url request w
     = (Pending, Earlier.after url request w (S k)))
  ∧ fetched (Earlier.after url request w (S k)) = (S k + fetched w)%nat
  ∧ cache (Earlier.after url request w (S k)) = cache w.
Proof.
  intros Hsel Hrej Hk.
  pose proof (earlier_settles request k fuel url w Hsel Hk Hrej) as Hrun.
  split; [|split; [|split; reflexivity]].
  - intros r (s & Hs & Hr). by rewrite Hs, Hr in Hrun.
  - intros Hs. by rewrite Hs in Hrun.
Qed.

(** [getOriginResponse] of the earlier revision in terms of its loop. *)
Lemma earlier_getOriginResponse_eq (fuel : nat) (url : URL) (event : EventArg)
    (key : Request) (w : World) :
  Earlier.getOriginResponse fuel url event key w
  = match Earlier.tryProvider fuel url (event_request event) w with
    | (Returns r, w1) =>
        match event with
        | IsEvent _ =>
            (Returns (stored_as r),
             put_world w1 key (stored_as r) [Cache_put key (stored_as r); Wait_until])
        | IsRequest _ =>
            (Throws (TypeError "event.waitUntil is not a function"),
             put_world w1 key (stored_as r) [Cache_put key (stored_as r)])
        end
    | (Throws e, w1) => (Throws e, w1)
    | (Pending, w1) => (Pending, w1)
    end.
Proof.
  unfold Earlier.getOriginResponse, bind at 1.
  destruct (Earlier.tryProvider fuel url (event_request event) w) as [[r|e|] w1];
    [|reflexivity|reflexivity].
  rewrite Headers_of_edge. fold (stored_as r).
  unfold bind at 1, caches_put, bind at 1, emit.
  cbn [cache trace randoms drawn network fetched].
  destruct event as [ev|rq]; unfold waitUntil, bind, emit, throw, ret, put_world;
    cbn [cache trace randoms drawn network fetched].
  - by rewrite <- app_assoc.
  - reflexivity.
Qed.

Lemma earlier_handlePost_unfold (fuel : nat) (event : FetchEvent) (w : World)
    (body : JSON) :
  body_of event = Some body →
  body ≠ JNull →
  Earlier.handlePost fuel event w
  = let request := ev_request event in
    let cacheKey := cacheKey_of request (get_prop "params" body) in
    bind (caches_match cacheKey)
         (fun response =>
            bind (match response with
                  | Some response => ret response
                  | None => Earlier.getOriginResponse fuel (req_url cacheKey)
                              (IsEvent event) cacheKey
                  end)
                 (fun response =>
                    formatResponse response (Some [("id", get_prop "id" body)]))) w.
Proof.
  unfold body_of. intros Hbody Hnull. unfold Earlier.handlePost.
  unfold bind at 1, Request_clone, ret at 1.
  unfold bind at 1, json. rewrite Hbody. unfold ret at 1.
  by destruct body.
Qed.

(** X13.  In the earlier revision no method goes past the cache and no
    answer is checked.  Whatever the method of the call,
    [eth_blockNumber] included, a POST that hits the cache is answered
    from it without a fetch; and on a miss the answer of the first fetch
    that is answered, whatever its status, is stored under the key and
    returned with the [id] of the request merged in. *)
Theorem earlier_post_caches_all (fuel : nat) (event : FetchEvent) (w : World)
    (body : JSON) :
  body_of event = Some body →
  body ≠ JNull →
  let request := ev_request event in
  let key := cacheKey_of request (get_prop "params" body) in
  let id := get_prop "id" body in
  (∀ response originalBody,
     cache_match (cache w) key = Some response →
     JSON_parse (default "" (res_body response)) = Some originalBody →
     ∃ r, Earlier.handlePost fuel event w
          = (Returns r, advance w [Cache_match key] 0 0)
          ∧ res_body r = Some (JSON_stringify_object (spread2 originalBody [("id", id)])))
  ∧ (∀ p r0 originalBody,
       cache_match (cache w) key = None →
       select (draw w 0) = Some p →
       Earlier.responded (promise w 0) r0 →
       JSON_parse (default "" (res_body r0)) = Some originalBody →
       ∃ r, Earlier.handlePost (S fuel) event w
            = (Returns r,
               put_world
                 (advance w [Cache_match key;
                             Fetch_call (URL_toString (target_of (req_url request) p))
                                        request] 1 1)
                 key (stored_as r0) [Cache_put key (stored_as r0); Wait_until])
            ∧ res_body r
              = Some (JSON_stringify_object (spread2 originalBody [("id", id)]))
            ∧ status r = status (stored_as r0)).
Proof.
  intros Hbody Hnull request key id. subst request key id. split.
  - intros response originalBody Hhit Hparse.
    rewrite (earlier_handlePost_unfold _ _ _ _ Hbody Hnull). cbn zeta.
    unfold bind at 1. rewrite caches_match_eq, Hhit.
    unfold bind at 1, ret at 1.
    destruct (formatResponse_parsed response [("id", get_prop "id" body)]
                (advance w [Cache_match (cacheKey_of (ev_request event)
                                           (get_prop "params" body))] 0 0)
                originalBody Hparse) as (r & Hrun & Hb & _).
    exists r. by split.
  - intros p r0 originalBody Hmiss Hp (s & Hs & Hr) Hparse.
    rewrite (earlier_handlePost_unfold _ _ _ _ Hbody Hnull). cbn zeta.
    unfold bind at 1. rewrite caches_match_eq, Hmiss.
    unfold bind at 1. rewrite earlier_getOriginResponse_eq.
    cbn [event_request]. rewrite earlier_pass.
    assert (Hp' : select (draw (advance w [Cache_match (cacheKey_of (ev_request event)
                                                         (get_prop "params" body))] 0 0) 0)
                  = Some p) by exact Hp.
    rewrite Hp'. cbn zeta.
    assert (Hs' : promise (advance w [Cache_match (cacheKey_of (ev_request event)
                                                     (get_prop "params" body))] 0 0) 0
                  = Some s) by exact Hs.
    rewrite Hs', Hr. rewrite advance_advance. cbn [Earlier.init_or_bare app Nat.add].
    rewrite <- (stored_as_body r0) in Hparse.
    destruct (formatResponse_parsed (stored_as r0) [("id", get_prop "id" body)]
                (put_world
                   (advance w
                      [Cache_match (cacheKey_of (ev_request event) (get_prop "params" body));
                       Fetch_call
                         (URL_toString (target_of (req_url (ev_request event)) p))
                         (ev_request event)] 1 1)
                   (cacheKey_of (ev_request event) (get_prop "params" body))
                   (stored_as r0)
                   [Cache_put (cacheKey_of (ev_request event) (get_prop "params" body))
                              (stored_as r0); Wait_until])
                originalBody Hparse) as (r & Hrun & Hb & Hst).
    exists r. split; [exact Hrun | by split].
Qed.

(** X14.  In the earlier revision a request that is neither OPTIONS nor
    POST and misses the cache does reach the origin, but as a bare GET:
    [event.request] of a request is [undefined], so the fetch is given
    no method, no header and no body of the client.  The answer, of any
    status, is handed to [cache.put] under the request, and then the
    handler throws at [event.waitUntil]: the client gets no response. *)
Theorem earlier_get_miss (fuel : nat) (event : FetchEvent) (w : World)
    (p : URL) (r0 : Response) :
  let request := ev_request event in
  toUpperCase (req_method request) ≠ "OPTIONS" →
  toUpperCase (req_method request) ≠ "POST" →
  cache_match (cache w) request = None →
  select (draw w 0) = Some p →
  Earlier.responded (promise w 0) r0 →
  let target := target_of (req_url request) p in
  ∃ w', Earlier.on_fetch (S fuel) event w
        = (Throws (TypeError "event.waitUntil is not a function"), w')
        ∧ trace w'
          = trace w ++ [Cache_match request;
                        Fetch_call (URL_toString target) (mkRequest "GET" target ∅ None);
                        Cache_put request (stored_as r0)]
        ∧ fetched w' = S (fetched w)
        ∧ res_body (stored_as r0) = res_body r0.
Proof.
  intros request Hopt Hpost Hmiss Hp (s & Hs & Hr) target. subst request target.
  unfold Earlier.on_fetch.
  destruct (String.eqb_spec (toUpperCase (req_method (ev_request event))) "OPTIONS")
    as [E|_]; [done|].
  destruct (String.eqb_spec (toUpperCase (req_method (ev_request event))) "POST")
    as [E|_]; [done|].
  unfold Earlier.handleGet. unfold bind at 1. rewrite caches_match_eq, Hmiss.
  unfold bind at 1. rewrite earlier_getOriginResponse_eq.
  cbn [event_request]. rewrite earlier_pass.
  assert (Hp' : select (draw (advance w [Cache_match (ev_request event)] 0 0) 0) = Some p)
    by exact Hp.
  assert (Hs' : promise (advance w [Cache_match (ev_request event)] 0 0) 0 = Some s)
    by exact Hs.
  rewrite Hp'. cbn zeta. rewrite Hs', Hr, advance_advance.
  eexists. split; [reflexivity|].
  split; [|split; [reflexivity | apply stored_as_body]].
  unfold put_world, advance. cbn [trace]. by rewrite <- !app_assoc.
Qed.

End EarlierRevision.
(** * The statements at work on the fixture *)

Import Fixture.

Lemma fixture_draws (us : list Q) (net : list FetchPromise) :
  Forall (fun u => is_double u ∧ (0 <= u)%Q ∧ (u < 1)%Q) us →
  ∀ i, is_double (randoms (world us net) i)
       ∧ (0 <= randoms (world us net) i)%Q ∧ (randoms (world us net) i < 1)%Q.
Proof.
  intros Hus i. cbn. revert i.
  induction Hus as [|u us Hu _ IH]; intros [|i]; cbn; done.
Qed.

Lemma tryProvider_failover_witness :
  PROVIDERS ≠ []
  ∧ (∀ i, is_double (randoms slow_then_fast i)
          ∧ (0 <= randoms slow_then_fast i)%Q ∧ (randoms slow_then_fast i < 1)%Q)
  ∧ tryProvider 2 here (Some asked) slow_then_fast
    = (Returns (reply 200 answer), after here asked slow_then_fast 2).
Proof.
  assert (Hne : PROVIDERS ≠ []) by discriminate.
  assert (Hu : ∀ i, is_double (randoms slow_then_fast i)
                    ∧ (0 <= randoms slow_then_fast i)%Q ∧ (randoms slow_then_fast i < 1)%Q)
    by (apply fixture_draws; repeat constructor; discriminate).
  split; [exact Hne|]. split; [exact Hu|].
  apply (tryProvider_failover 0 here asked slow_then_fast Hne Hu).
  - intros j Hj. assert (j = 0%nat) as -> by lia.
    eexists. apply verdict_inr. vm_compute. reflexivity.
  - apply (verdict_inl here). vm_compute. reflexivity.
  - lia.
Defined.

Lemma cacheKey_derivation_witness :
  req_method (cacheKey_of asked (Some params_abc)) = "GET"
  ∧ pathname (req_url (cacheKey_of asked (Some params_abc)))
    = "/posts/4d8200e3fb5fe09847eaa9871a9934452f8d9c5758bf00fed71ce7e5b8c30896"
  ∧ ∃ effs, trace (snd (handlePost 1 (post (eth_call (JStr "abc"))) answering))
            = Cache_match (cacheKey_of asked (Some params_abc)) :: effs.
Proof.
  pose proof (cacheKey_derivation asked params_abc) as H. cbn zeta in H.
  destruct H as (Hm & Hp & _ & _ & _ & _ & Hlook).
  split; [exact Hm|]. split; [rewrite Hp; vm_compute; reflexivity|].
  apply (Hlook 1%nat (post (eth_call (JStr "abc"))) answering (eth_call (JStr "abc")));
    vm_compute; reflexivity.
Defined.

Lemma bypass_policy_witness :
  (body_of (post blockNumber) = Some blockNumber
   ∧ blockNumber ≠ JNull
   ∧ cache (snd (handlePost 1 (post blockNumber) answering)) = cache answering)
  ∧ (body_of (post (eth_call (JStr "abc"))) = Some (eth_call (JStr "abc"))
     ∧ eth_call (JStr "abc") ≠ JNull
     ∧ cache (snd (handlePost 1 (post (eth_call (JStr "abc"))) answering))
       = cache_put (cache answering) (cacheKey_of asked (Some params_abc))
                   (stored_as (reply 200 answer))).
Proof.
  assert (Hb1 : body_of (post blockNumber) = Some blockNumber) by (vm_compute; reflexivity).
  assert (Hn1 : blockNumber ≠ JNull) by discriminate.
  assert (Hb2 : body_of (post (eth_call (JStr "abc"))) = Some (eth_call (JStr "abc")))
    by (vm_compute; reflexivity).
  assert (Hn2 : eth_call (JStr "abc") ≠ JNull) by discriminate.
  split; (split; [assumption|]; split; [assumption|]).
  - destruct (bypass_policy 1 (post blockNumber) answering blockNumber Hb1 Hn1)
      as [Hbypass _].
    destruct (Hbypass (or_introl eq_refl)) as [Hcache _]. exact Hcache.
  - destruct (bypass_policy 1 (post (eth_call (JStr "abc"))) answering
                (eth_call (JStr "abc")) Hb2 Hn2) as [_ Hcached].
    destruct (Hcached ltac:(discriminate) ltac:(discriminate)) as [_ Hstore].
    refine (proj2 (Hstore _ (reply 200 answer) _ _)); [reflexivity|].
    vm_compute. reflexivity.
Defined.

Lemma formatted_headers_witness :
  ∃ r w', handlePost 1 (post (eth_call (JStr "abc"))) answering = (Returns r, w')
          ∧ Headers_get "Cache-Control" (res_headers r) = Some "max-age=0"
          ∧ Headers_get "Access-Control-Allow-Origin" (res_headers r) = Some "*".
Proof.
  destruct (handlePost 1 (post (eth_call (JStr "abc"))) answering) as [o w'] eqn:Hrun.
  assert (Ho : answered o = true).
  { change o with (fst (o, w')). rewrite <- Hrun. vm_compute. reflexivity. }
  destruct o as [r|e|]; try discriminate.
  exists r, w'. split; [reflexivity|].
  destruct formatted_headers as (_ & _ & Hpost).
  destruct (Hpost _ _ _ _ _ Hrun) as (Hcc & Hao & _). by split.
Defined.


(** The body sent back for the [id] ["abc"], the origin's answer having
    [id] 99. *)
Example id_preserved :
  match fst (handlePost 1 (post (eth_call (JStr "abc"))) answering) with
  | Returns r =>
      res_body r
      = Some (stringify (JObj [("jsonrpc", JStr "2.0"); ("id", JStr "abc");
                               ("result", JStr "0x10")]))
  | _ => False
  end.
Proof. vm_compute. reflexivity. Qed.



Lemma handleGet_miss_witness :
  cache_match (cache answering) (ev_request get) = None
  ∧ answered (fst (handleGet 50 get answering)) = false
  ∧ fetched (snd (handleGet 50 get answering)) = 0%nat.
Proof.
  assert (Hmiss : cache_match (cache answering) (ev_request get) = None) by reflexivity.
  split; [exact Hmiss|].
  destruct (handleGet_miss 50 get answering Hmiss) as (Hans & _ & Hf & _).
  by split.
Defined.

(** A GET on an empty cache: the loop is still turning when the fuel is
    spent, and has logged one [TypeError] per pass. *)
Example handleGet_miss_run :
  fst (handleGet 3 get answering) = Pending
  ∧ trace (snd (handleGet 3 get answering))
    = Cache_match (ev_request get)
      :: concat (repeat
           [Console_log ["Attempting provider: "; "a.example"];
            Console_error
              (TypeError "Cannot read properties of undefined (reading 'clone')")]
           3).
Proof. vm_compute. split; reflexivity. Qed.

(** C8.  The key is derived from [params] alone, not from [method] and
    [jsonrpc]: [eth_getBalance] and [eth_getTransactionCount] of the same
    account derive the same key, the second request is answered with the
    cached answer to the first, and the origin is not asked. *)
Theorem same_params_same_entry :
  let first := handlePost 1 (post getBalance) answering in
  let second := handlePost 1 (post getTransactionCount) (snd first) in
  get_prop "method" getBalance = Some (JStr "eth_getBalance")
  ∧ get_prop "method" getTransactionCount = Some (JStr "eth_getTransactionCount")
  ∧ cacheKey_of (ev_request (post getBalance)) (get_prop "params" getBalance)
    = cacheKey_of (ev_request (post getTransactionCount))
                  (get_prop "params" getTransactionCount)
  ∧ answered (fst first) = true
  ∧ fst second = fst first
  ∧ fetched (snd second) = fetched (snd first)
  ∧ cache (snd second) = cache (snd first).
Proof. vm_compute. repeat split; reflexivity. Qed.

(** A body that lacks [id] and [jsonrpc]: the handler answers. *)
Lemma missing_fields_answered :
  body_of (post no_id) = Some no_id
  ∧ get_prop "id" no_id = None
  ∧ get_prop "jsonrpc" no_id = None
  ∧ answered (fst (handlePost 1 (post no_id) answering)) = true.
Proof. vm_compute. repeat split; reflexivity. Qed.

Lemma malformed_post_witness :
  (body_of bodyless = None ∨ body_of bodyless = Some JNull)
  ∧ answered (fst (on_fetch 1 bodyless answering)) = false.
Proof.
  assert (Hbody : body_of bodyless = None ∨ body_of bodyless = Some JNull)
    by (left; vm_compute; reflexivity).
  split; [exact Hbody|].
  destruct (malformed_post 1 _ answering Hbody) as (_ & Hans & Hlisten).
  rewrite (Hlisten eq_refl). exact Hans.
Defined.

Lemma post_without_id_witness :
  body_of (post no_id) = Some no_id
  ∧ get_prop "id" no_id = None
  ∧ get_prop "id" answer = Some (JNum 99)
  ∧ ∃ r w', handlePost 1 (post no_id) answering = (Returns r, w')
            ∧ ∃ originalBody,
                res_body r
                = Some (stringify
                          (JObj (defined_props (obj_set "id" None (spread2 originalBody [])))))
                ∧ get_prop "id"
                    (JObj (defined_props (obj_set "id" None (spread2 originalBody []))))
                  = None.
Proof.
  assert (Hb : body_of (post no_id) = Some no_id) by (vm_compute; reflexivity).
  assert (Hid : get_prop "id" no_id = None) by reflexivity.
  split; [exact Hb|]. split; [exact Hid|]. split; [reflexivity|].
  destruct (handlePost 1 (post no_id) answering) as [o w'] eqn:Hrun.
  assert (Ho : answered o = true).
  { change o with (fst (o, w')). rewrite <- Hrun. vm_compute. reflexivity. }
  destruct o as [r|e|]; try discriminate.
  exists r, w'. split; [reflexivity|].
  destruct (post_without_id _ _ _ _ _ _ Hb Hid Hrun)
    as (response & originalBody & _ & _ & Hmerge).
  cbn zeta in Hmerge. destruct Hmerge as (_ & Hbody & Hnone & _).
  exists originalBody. by split.
Defined.

(** The body sent back when the request has no [id], the origin's answer
    having [id] 99. *)
Example id_dropped :
  match fst (handlePost 1 (post no_id) answering) with
  | Returns r =>
      res_body r
      = Some (stringify (JObj [("jsonrpc", JStr "2.0"); ("result", JStr "0x10")]))
  | _ => False
  end.
Proof. vm_compute. reflexivity. Qed.

(** ** The further statements at work *)

Import Scenes.

Lemma options_answered_witness :
  toUpperCase (req_method (ev_request preflight)) = "OPTIONS"
  ∧ ∃ r, on_fetch 0 preflight silent = (Returns r, silent)
         ∧ status r = 200%Z
         ∧ Headers_get "Access-Control-Allow-Headers" (res_headers r)
           = Some "content-type".
Proof.
  assert (Hm : toUpperCase (req_method (ev_request preflight)) = "OPTIONS")
    by (vm_compute; reflexivity).
  split; [exact Hm|].
  destruct (options_answered 0 preflight silent Hm) as (r & Hrun & Hst & _ & _ & Hpre & _).
  exists r. split; [exact Hrun|]. split; [exact Hst|].
  refine (proj1 (Hpre "content-type" _ _ _)).
  - vm_compute. eauto.
  - vm_compute. eauto.
  - vm_compute. reflexivity.
Defined.

Lemma get_served_from_cache_witness :
  toUpperCase (req_method (ev_request get)) ≠ "OPTIONS"
  ∧ toUpperCase (req_method (ev_request get)) ≠ "POST"
  ∧ cache_match (cache warm) (ev_request get) = Some (reply 200 answer)
  ∧ ∃ r, on_fetch 0 get warm
         = (Returns r, advance warm [Cache_match (ev_request get)] 0 0)
         ∧ res_body r = Some (stringify answer).
Proof.
  assert (H1 : toUpperCase (req_method (ev_request get)) ≠ "OPTIONS")
    by (vm_compute; discriminate).
  assert (H2 : toUpperCase (req_method (ev_request get)) ≠ "POST")
    by (vm_compute; discriminate).
  assert (H3 : cache_match (cache warm) (ev_request get) = Some (reply 200 answer))
    by (vm_compute; reflexivity).
  split; [exact H1|]. split; [exact H2|]. split; [exact H3|].
  destruct (get_served_from_cache 0 get warm H1 H2) as [Hhit _].
  destruct (Hhit _ H3) as (r & Hrun & Hb & _).
  exists r. split; [exact Hrun | exact Hb].
Defined.

Lemma post_served_from_cache_witness :
  body_of (post (eth_call (JStr "abc"))) = Some (eth_call (JStr "abc"))
  ∧ cache_match (cache stocked) (cacheKey_of asked (Some params_abc))
    = Some (stored_as (reply 200 answer))
  ∧ ∃ r, handlePost 0 (post (eth_call (JStr "abc"))) stocked
         = (Returns r,
            advance stocked [Cache_match (cacheKey_of asked (Some params_abc))] 0 0)
         ∧ status r = 200%Z.
Proof.
  assert (Hb : body_of (post (eth_call (JStr "abc"))) = Some (eth_call (JStr "abc")))
    by (vm_compute; reflexivity).
  assert (Hhit : cache_match (cache stocked) (cacheKey_of asked (Some params_abc))
                 = Some (stored_as (reply 200 answer)))
    by (vm_compute; reflexivity).
  split; [exact Hb|]. split; [exact Hhit|].
  destruct (post_served_from_cache 0 (post (eth_call (JStr "abc"))) stocked
              (eth_call (JStr "abc")) (stored_as (reply 200 answer)) answer
              Hb ltac:(discriminate) ltac:(vm_compute; reflexivity) Hhit
              ltac:(vm_compute; reflexivity)) as (r & Hrun & _ & Hst & _).
  exists r. split; [exact Hrun | exact Hst].
Defined.

Lemma formatResponse_passes_through_witness :
  ∃ r, formatResponse page None silent = (Returns r, silent)
       ∧ status r = 200%Z
       ∧ res_body r = Some "<html>"
       ∧ Headers_get "Content-Type" (res_headers r) = Some "text/html".
Proof.
  destruct (formatResponse_plain page silent) as (r & Hrun & _).
  exists r. split; [exact Hrun|].
  destruct (formatResponse_passes_through page None silent silent r Hrun)
    as (_ & Hst & _ & Hkeep & Hplain).
  split; [exact Hst|]. split; [exact (proj1 (Hplain eq_refl))|].
  apply Hkeep; [|vm_compute; reflexivity].
  unfold set_by_format. vm_compute. intros [H|[H|[H|H]]]; discriminate.
Defined.

Lemma unparseable_answer_witness :
  body_of (post (eth_call (JStr "abc"))) = Some (eth_call (JStr "abc"))
  ∧ JSON_parse (default "" (res_body page)) = None
  ∧ ∃ w', handlePost 1 (post (eth_call (JStr "abc"))) serving_page
          = (Throws (SyntaxError "Unexpected token in JSON"), w')
          ∧ cache w' = cache_put (cache serving_page)
                                 (cacheKey_of asked (Some params_abc)) (stored_as page).
Proof.
  assert (Hb : body_of (post (eth_call (JStr "abc"))) = Some (eth_call (JStr "abc")))
    by (vm_compute; reflexivity).
  assert (Hp : JSON_parse (default "" (res_body page)) = None)
    by (vm_compute; reflexivity).
  split; [exact Hb|]. split; [exact Hp|].
  destruct (unparseable_answer 1 (post (eth_call (JStr "abc"))) serving_page
              (eth_call (JStr "abc")) Hb ltac:(discriminate)
              ltac:(vm_compute; reflexivity)) as [Hmiss _].
  eexists. split.
  - apply (Hmiss page); [vm_compute; reflexivity | | exact Hp].
    vm_compute. reflexivity.
  - vm_compute. reflexivity.
Defined.

Lemma empty_pool_witness :
  @PROVIDERS no_providers = []
  ∧ @tryProvider runtime no_providers 3 here (Some asked) silent
    = (Throws (TypeError "Invalid URL"), advance silent [] 1 0).
Proof.
  split; [reflexivity|].
  exact (proj1 (@empty_pool runtime no_providers 2 silent eq_refl) here (Some asked)).
Defined.

Lemma never_gives_up_witness :
  (∀ j, is_Some (select (draw silent j)))
  ∧ tryProvider 4 here (Some asked) silent = (Pending, after here asked silent 4)
  ∧ fetched (after here asked silent 4) = 4%nat.
Proof.
  assert (Hsel : ∀ j, is_Some (select (draw silent j))).
  { intros j. exists providerA. unfold draw, silent, world. cbn [randoms drawn].
    destruct (j + 0)%nat as [|n]; vm_compute; reflexivity. }
  assert (Hfail : ∀ j, ∃ e, failed (retarget (chosen silent j) here) (promise silent j) e).
  { intros j. exists (Error_ "Timeout"). left. split; [|reflexivity]. left.
    unfold promise, silent, world. cbn [network fetched].
    destruct (j + 0)%nat as [|n]; reflexivity. }
  split; [exact Hsel|].
  destruct (never_gives_up 4 here asked silent Hsel Hfail) as (Hrun & Hf & _).
  split; [exact Hrun | exact Hf].
Defined.

Lemma fetch_targets_witness :
  ∃ effs, trace (snd (tryProvider 2 here (Some asked) slow_then_fast))
          = trace slow_then_fast ++ effs
          ∧ ∀ u init, In (Fetch_call u init) effs →
              Some asked = Some init
              ∧ ∃ p, In p PROVIDERS ∧ u = URL_toString (target_of here p).
Proof.
  destruct (tryProvider 2 here (Some asked) slow_then_fast) as [o w'] eqn:Hrun.
  exact (proj1 (fetch_targets 2 here (Some asked) slow_then_fast w' o Hrun)).
Defined.

Lemma origin_headers_witness :
  body_of (post blockNumber) = Some blockNumber
  ∧ body_of (post (eth_call (JStr "abc"))) = Some (eth_call (JStr "abc"))
  ∧ (∃ r w', handlePost 1 (post blockNumber) serving_created = (Returns r, w')
             ∧ status r = 201%Z
             ∧ Headers_get "X-Served-By" (res_headers r) = Some "node-7")
  ∧ (∃ r w', handlePost 1 (post (eth_call (JStr "abc"))) serving_created
             = (Returns r, w')
             ∧ status r = 201%Z
             ∧ statusText r = "Created"
             ∧ Headers_get "X-Served-By" (res_headers r) = None).
Proof.
  assert (Hb : body_of (post blockNumber) = Some blockNumber) by (vm_compute; reflexivity).
  assert (Hc : body_of (post (eth_call (JStr "abc"))) = Some (eth_call (JStr "abc")))
    by (vm_compute; reflexivity).
  assert (Hname : ¬ set_by_format "X-Served-By").
  { unfold set_by_format. vm_compute. intros [H|[H|[H|H]]]; discriminate. }
  assert (Hct : toLowerCase "X-Served-By" ≠ "content-type") by (vm_compute; discriminate).
  split; [exact Hb|]. split; [exact Hc|]. split.
  - destruct (handlePost 1 (post blockNumber) serving_created) as [o w'] eqn:Hrun.
    assert (Ho : answered o = true).
    { change o with (fst (o, w')). rewrite <- Hrun. vm_compute. reflexivity. }
    destruct o as [r|e|]; try discriminate.
    exists r, w'. split; [reflexivity|].
    destruct (origin_headers 1 (post blockNumber) serving_created w' blockNumber r Hb Hrun)
      as [Hbypass _].
    destruct (Hbypass ltac:(vm_compute; reflexivity)) as (r0 & Hloop & Hst & _ & Hh).
    assert (Hr0 : r0 = created).
    { assert (E : Returns r0 = Returns created).
      { change (Returns r0) with (fst (Returns r0, w')). rewrite <- Hloop.
        vm_compute. reflexivity. }
      by injection E. }
    rewrite Hst, (Hh _ Hname Hct), Hr0. split; [reflexivity | vm_compute; reflexivity].
  - destruct (handlePost 1 (post (eth_call (JStr "abc"))) serving_created)
      as [o w'] eqn:Hrun.
    assert (Ho : answered o = true).
    { change o with (fst (o, w')). rewrite <- Hrun. vm_compute. reflexivity. }
    destruct o as [r|e|]; try discriminate.
    exists r, w'. split; [reflexivity|].
    destruct (origin_headers 1 (post (eth_call (JStr "abc"))) serving_created w'
                (eth_call (JStr "abc")) r Hc Hrun) as [_ Hmiss].
    destruct (Hmiss ltac:(vm_compute; reflexivity) ltac:(vm_compute; reflexivity))
      as (r0 & w1 & Hloop & Hst & Hstt & Hh).
    assert (Hr0 : r0 = created).
    { assert (E : Returns r0 = Returns created).
      { change (Returns r0) with (fst (Returns r0, w1)). rewrite <- Hloop.
        vm_compute. reflexivity. }
      by injection E. }
    rewrite Hst, Hstt, (Hh _ Hname Hct), Hr0. by repeat split.
Defined.

Lemma cacheKey_separates_witness :
  cacheKey_of asked (Some params_abc)
  = cacheKey_of (mkRequest "PUT" here (req_headers asked) None) (Some params_abc)
  ∧ req_url asked = here.
Proof.
  assert (E : cacheKey_of asked (Some params_abc)
              = cacheKey_of (mkRequest "PUT" here (req_headers asked) None)
                            (Some params_abc)) by reflexivity.
  split; [exact E|].
  exact (proj1 (cacheKey_separates _ _ _ _ E)).
Defined.

Lemma earlier_failover_witness :
  (∀ j, is_Some (select (draw rejecting_once j)))
  ∧ Earlier.tryProvider 2 here (Some asked) rejecting_once
    = (Returns (reply 200 answer), Earlier.after here (Some asked) rejecting_once 2)
  ∧ Earlier.tryProvider 9 here (Some asked) silent
    = (Pending, Earlier.after here (Some asked) silent 1).
Proof.
  assert (Hsel : ∀ j, is_Some (select (draw rejecting_once j))).
  { intros j. unfold draw, rejecting_once, world. cbn [randoms drawn].
    destruct (j + 0)%nat as [|[|[|n]]]; eexists; vm_compute; reflexivity. }
  assert (Hsel' : ∀ j, is_Some (select (draw silent j))).
  { intros j. exists providerA. unfold draw, silent, world. cbn [randoms drawn].
    destruct (j + 0)%nat as [|n]; vm_compute; reflexivity. }
  split; [exact Hsel|]. split.
  - refine (proj1 (earlier_failover 2 here (Some asked) rejecting_once 1 Hsel _ _) _ _).
    + intros j Hj. exists (TypeError "Network connection lost").
      destruct j as [|j]; [|lia]. eexists. split; reflexivity.
    + lia.
    + eexists. split; reflexivity.
  - refine (proj1 (proj2 (earlier_failover 9 here (Some asked) silent 0 Hsel' _ _)) _).
    + intros j Hj. lia.
    + lia.
    + reflexivity.
Defined.

Lemma earlier_post_caches_all_witness :
  body_of (post blockNumber) = Some blockNumber
  ∧ ok (reply 500 answer) = false
  ∧ ∃ r, fst (Earlier.handlePost 1 (post blockNumber) failing) = Returns r
         ∧ cache (snd (Earlier.handlePost 1 (post blockNumber) failing))
           = cache_put (cache failing)
               (cacheKey_of (ev_request (post blockNumber)) (Some (JArr [])))
               (stored_as (reply 500 answer))
         ∧ status r = 500%Z.
Proof.
  assert (Hb : body_of (post blockNumber) = Some blockNumber) by (vm_compute; reflexivity).
  split; [exact Hb|]. split; [reflexivity|].
  destruct (earlier_post_caches_all 0 (post blockNumber) failing blockNumber Hb
              ltac:(discriminate)) as [_ Hmiss].
  destruct (Hmiss providerA (reply 500 answer) answer) as (r & Hrun & _ & Hst).
  - vm_compute. reflexivity.
  - vm_compute. reflexivity.
  - eexists. split; reflexivity.
  - vm_compute. reflexivity.
  - exists r. rewrite Hrun. split; [reflexivity|]. split; [reflexivity|].
    rewrite Hst. reflexivity.
Defined.

Lemma earlier_get_miss_witness :
  toUpperCase (req_method (ev_request get)) ≠ "OPTIONS"
  ∧ toUpperCase (req_method (ev_request get)) ≠ "POST"
  ∧ ∃ w', Earlier.on_fetch 1 get failing
          = (Throws (TypeError "event.waitUntil is not a function"), w')
          ∧ fetched w' = 1%nat.
Proof.
  assert (H1 : toUpperCase (req_method (ev_request get)) ≠ "OPTIONS")
    by (vm_compute; discriminate).
  assert (H2 : toUpperCase (req_method (ev_request get)) ≠ "POST")
    by (vm_compute; discriminate).
  split; [exact H1|]. split; [exact H2|].
  destruct (earlier_get_miss 0 get failing providerA (reply 500 answer) H1 H2)
    as (w' & Hrun & _ & Hf & _).
  - vm_compute. reflexivity.
  - vm_compute. reflexivity.
  - eexists. split; reflexivity.
  - exists w'. split; [exact Hrun | exact Hf].
Defined.
